(** * Sift_PM: the reconciliation pipeline of [functions.py]

    A shallow embedding of the functions of [functions.py] that decide how
    PubMed identifiers are filtered by citation count, how bibliographic
    records are fetched and patched, and how duplicate records are detected
    and resolved, followed by the properties proved about them.

    Conventions of the embedding.
    - A BibTeX entry as [bibtexparser] returns it (a Python [dict] from field
      name to string) is a [gmap string string]; [entry.get(k)] is [e !! k].
    - A Python [dict] whose iteration order matters ([groups] in
      [remove_duplicates]) is an association list in insertion order.
    - A Python [set] of strings is a [gset string].
    - Every call to an external service (Entrez, CrossRef, the [pubmed-bib]
      executable) is an argument of the function that performs it: the model
      fixes what the code does with the answer, never the answer.
    - A Python exception that leaves a function is the [Raised] case of
      [outcome]; [time.sleep] and network requests are recorded in an event
      log where a property speaks about them. *)

From Stdlib Require Import ZArith Ascii.
From Stdlib Require OrderedTypeEx.
From stdpp Require Import gmap strings list fin_maps sorting.

Local Open Scope Z_scope.

(* ===================================================================== *)
(** * Part I: the embedding                                               *)
(* ===================================================================== *)

(** ** Python values, exceptions and effects *)

(** The exceptions the modelled code can meet. [OtherException] stands for
    any exception class that is none of the others. *)
Inductive exn : Type :=
  | HTTPError
  | IndexError
  | KeyError
  | TypeError
  | NameError (name : string)
  | UnicodeEncodeError
  | OtherException.

Global Instance exn_eq_dec : EqDecision exn.
Proof. solve_decision. Defined.

(** The result of running a piece of Python: a value, or an exception that
    propagates to the caller. *)
Inductive outcome (A : Type) : Type :=
  | Ok (a : A)
  | Raised (e : exn).
Arguments Ok {A} a.
Arguments Raised {A} e.

Global Instance outcome_ret : MRet outcome := λ A a, Ok a.

Global Instance outcome_bind : MBind outcome := λ A B k m,
  match m with
  | Ok a => k a
  | Raised e => Raised e
  end.

(** The arguments [get_citations] can be called with: the caller passes a
    string, but the function guards against every other kind of value. *)
Inductive pyval : Type :=
  | PyNone
  | PyBool (b : bool)
  | PyInt (z : Z)
  | PyStr (s : string)
  | PyObject (truth : bool).  (* any other object, with its truth value *)

(** Python truthiness, [bool(v)]. *)
Definition truthy (v : pyval) : bool :=
  match v with
  | PyNone => false
  | PyBool b => b
  | PyInt z => negb (z =? 0)
  | PyStr s => negb (String.eqb s "")
  | PyObject truth => truth
  end.

(** [isinstance(v, str)]. *)
Definition isinstance_str (v : pyval) : bool :=
  match v with
  | PyStr _ => true
  | _ => false
  end.

(** Truthiness of a string, and of the result of [dict.get]. *)
Definition str_truthy (s : string) : bool := negb (String.eqb s "").

Definition opt_truthy (o : option string) : bool :=
  match o with
  | Some s => str_truthy s
  | None => false
  end.

(** Observable effects: a network request, and [time.sleep] with its
    argument in milliseconds. *)
Inductive event : Type :=
  | Request (service : string) (arg : string)
  | Sleep (ms : Z).

Global Instance event_eq_dec : EqDecision event.
Proof. solve_decision. Defined.

(** ** [get_citations] *)

(** What [Entrez.read] returns for an [elink] query, as far as the code
    looks into it: a list of link sets, each possibly holding a
    ['LinkSetDb'] list, whose elements possibly hold a ['Link'] list. *)
Record link_set_db : Type := { Link : option (list string) }.
Record link_set : Type := { LinkSetDb : option (list link_set_db) }.

(** The body of the [try] block once [Entrez.read] has returned [record]. *)
Definition count_links (record : list link_set) : Z :=
  match record with
  | [] => 0                                   (* not record *)
  | r0 :: _ =>
    match LinkSetDb r0 with
    | None => 0                               (* 'LinkSetDb' not in record[0] *)
    | Some [] => 0                            (* not link_set_db *)
    | Some (d0 :: _) =>
      match Link d0 with
      | None => 0                             (* 'Link' not in link_set_db[0] *)
      | Some links => Z.of_nat (length links) (* len(link_set_db[0]['Link']) *)
      end
    end
  end.

(** The [for retry in range(max_retries)] loop. [elink retry] is what the
    request of iteration [retry] does: it answers with a record or raises.
    The result is the returned value ([None] is Python's [None], the failure
    signal) and the events of the call, oldest first. *)
Fixpoint get_citations_loop (elink : nat → outcome (list link_set))
    (pmid : string) (max_retries : Z) (retries : list nat) (log : list event)
    : option Z * list event :=
  match retries with
  | [] => (None, log)
  | retry :: rest =>
    let log := log ++ [Request "elink" pmid] in
    match elink retry with
    | Ok record => (Some (count_links record), log)
    | Raised HTTPError =>
      if Z.of_nat retry <? max_retries - 1
      then get_citations_loop elink pmid max_retries rest (log ++ [Sleep 2000])
      else (None, log)
    | Raised IndexError | Raised KeyError => (Some 0, log)
    | Raised _ => (None, log)
    end
  end.

Definition pystr (v : pyval) : string :=
  match v with
  | PyStr s => s
  | _ => ""
  end.

Definition get_citations (elink : nat → outcome (list link_set))
    (pmid : pyval) (max_retries : nat) : option Z * list event :=
  if negb (truthy pmid) || negb (isinstance_str pmid)
  then (Some 0, [])
  else get_citations_loop elink (pystr pmid) (Z.of_nat max_retries)
         (seq 0 max_retries) [].

(** The default of the [max_retries] parameter. *)
Definition default_max_retries : nat := 3.

(** The value [get_citations] returns when it could not determine a count,
    and the determined count zero. *)
Definition failure_signal : option Z := None.
Definition zero_citations : option Z := Some 0.

(** ** The threshold filter of [ref_gen] *)

(** One iteration of the [for pmid in pmids] loop that fills
    [pmids_with_at_least_X_citations] (first component) and
    [pmids_sub_threshold] (second component); [citation_count] is what
    [get_citations(pmid)] returned in that iteration. *)
Definition threshold_step (threshold : Z) (acc : list string * list string)
    (p : string * option Z) : list string * list string :=
  let '(pmid, citation_count) := p in
  match citation_count with
  | None => (acc.1, acc.2 ++ [pmid])
  | Some c =>
    if threshold <=? c
    then (acc.1 ++ [pmid], acc.2)
    else (acc.1, acc.2 ++ [pmid])
  end.

Definition threshold_filter (threshold : Z) (l : list (string * option Z))
    : list string * list string :=
  foldl (threshold_step threshold) ([], []) l.

(** The test the loop applies to a count. *)
Definition passes (threshold : Z) (citation_count : option Z) : bool :=
  match citation_count with
  | None => false
  | Some c => threshold <=? c
  end.

(** ** Entries and [fetch_title_from_biopython] *)

(** An entry of [bib_database.entries]. *)
Abbreviation entry := (gmap string string).

(** [efetch pmid] stands for the Entrez query and the lookup
    [record['PubmedArticle'][0]['MedlineCitation']['Article']['ArticleTitle']]:
    it yields the title found or raises. The argument is the group key, which
    is Python's [None] for the entries without a [pmid] field. *)
Definition fetch_title_from_biopython (efetch : option string → outcome string)
    (pmid : option string) : outcome (option string) :=
  title ← efetch pmid;
  mret (if str_truthy title then Some title else None).

(** ** [remove_duplicates] *)

(** [groups[pmid].append(entry)], creating the group at the end of the
    dictionary when the key is new. *)
Fixpoint groups_append (groups : list (option string * list entry))
    (pmid : option string) (e : entry) : list (option string * list entry) :=
  match groups with
  | [] => [(pmid, [e])]
  | (k, es) :: rest =>
    if decide (k = pmid)
    then (k, es ++ [e]) :: rest
    else (k, es) :: groups_append rest pmid e
  end.

(** The grouping loop: the key is [entry.get('pmid')]. *)
Definition group_by_pmid (entries : list entry)
    : list (option string * list entry) :=
  foldl (λ groups e, groups_append groups (e !! "pmid") e) [] entries.

(** Python's [<] on the sort keys [x.get('year')]: strings compare by code
    point, and a comparison that involves [None] raises [TypeError]. *)
Definition py_lt (a b : option string) : outcome bool :=
  match a, b with
  | Some x, Some y => Ok (String.ltb x y)
  | _, _ => Raised TypeError
  end.

(** [sorted(l, key=key)]: a stable sort that only uses [<] on the keys. It
    is written as an insertion sort from the right; a list of at most one
    element is returned without any comparison. *)
Fixpoint sorted_insert (key : entry → option string) (x : entry)
    (l : list entry) : outcome (list entry) :=
  match l with
  | [] => Ok [x]
  | y :: l' =>
    b ← py_lt (key y) (key x);
    if b : bool
    then r ← sorted_insert key x l'; mret (y :: r)
    else mret (x :: y :: l')
  end.

Fixpoint sorted (key : entry → option string) (l : list entry)
    : outcome (list entry) :=
  match l with
  | [] => Ok []
  | x :: l' => s ← sorted key l'; sorted_insert key x s
  end.

(** [sorted(entries, key=lambda x: x.get('year'))[0]]. *)
Definition earliest_year (entries : list entry) : outcome entry :=
  sorted_entries ← sorted (λ x, x !! "year") entries;
  match sorted_entries with
  | e :: _ => Ok e
  | [] => Raised IndexError
  end.

(** The body of the loop over [groups.items()]: the entry that is appended
    to [unique_entries] for one group. *)
Definition resolve_group (efetch : option string → outcome string)
    (pmid : option string) (entries : list entry) : outcome entry :=
  match entries with
  | [e] => Ok e
  | _ =>
    title_from_biopython ← fetch_title_from_biopython efetch pmid;
    match title_from_biopython with
    | Some title =>
      if str_truthy title
      then
        match filter (λ e : entry, e !! "title" = Some title) entries with
        | m :: _ => Ok m
        | [] => earliest_year entries
        end
      else earliest_year entries
    | None => earliest_year entries
    end
  end.

Fixpoint resolve_groups (efetch : option string → outcome string)
    (groups : list (option string * list entry)) : outcome (list entry) :=
  match groups with
  | [] => Ok []
  | (pmid, entries) :: rest =>
    e ← resolve_group efetch pmid entries;
    unique_entries ← resolve_groups efetch rest;
    mret (e :: unique_entries)
  end.

(** [remove_duplicates], from the entries [bibtexparser.load] returned to
    the [unique_entries] handed to [bibtexparser.dump]. *)
Definition remove_duplicates (efetch : option string → outcome string)
    (entries : list entry) : outcome (list entry) :=
  resolve_groups efetch (group_by_pmid entries).

(** ** The duplicate check of [check_info_check_duplicates] *)

Module Audit.

(** The loop of the nested helper [remove_duplicates(entries, key)]; the
    state is [(seen, new_entries, removed_keys)]. *)
Definition step (key : string)
    (st : gset string * list entry * gset string) (e : entry)
    : gset string * list entry * gset string :=
  let '(seen, new_entries, removed_keys) := st in
  match e !! key with
  | None => (seen, new_entries ++ [e], removed_keys)
  | Some val =>
    if negb (str_truthy val)
    then (seen, new_entries ++ [e], removed_keys)
    else if decide (val ∈ seen)
    then (seen, new_entries, removed_keys ∪ {[val]})
    else (seen ∪ {[val]}, new_entries ++ [e], removed_keys)
  end.

Definition remove_duplicates (entries : list entry) (key : string)
    : list entry * gset string :=
  let '(_, new_entries, removed_keys) :=
    foldl (step key) (∅, [], ∅) entries in
  (new_entries, removed_keys).

(** The three passes, each on the survivors of the one before; the result
    is the final entry list with [removed_ids], [removed_pmids] and
    [removed_dois]. *)
Definition three_passes (entries : list entry)
    : list entry * gset string * gset string * gset string :=
  let '(entries1, dup_ids) := remove_duplicates entries "ID" in
  let '(entries2, dup_pmids) := remove_duplicates entries1 "pmid" in
  let '(entries3, dup_dois) := remove_duplicates entries2 "doi" in
  (entries3, ∅ ∪ dup_ids, ∅ ∪ dup_pmids, ∅ ∪ dup_dois).

End Audit.

(** ** Text of a BibTeX entry *)

(** The raw entry [append_doi_pmid_to_entry] patches is a Python [str]; it is
    modelled as the list of its characters, a character being a code point
    below 256. The character classes below are Python's on these code
    points. *)
Abbreviation text := (list ascii).

Definition newline : ascii := "010"%char.

(** [str.isspace], which is also the class [\s] of [re] on a [str]. *)
Definition is_space (c : ascii) : bool :=
  let n := N_of_ascii c in
  ((9 <=? n) && (n <=? 13) || (28 <=? n) && (n <=? 32)
   || (n =? 133) || (n =? 160))%N.

(** The class [\w] of [re] on a [str]: alphanumeric or underscore. *)
Definition is_word (c : ascii) : bool :=
  let n := N_of_ascii c in
  ((48 <=? n) && (n <=? 57) || (65 <=? n) && (n <=? 90) || (n =? 95)
   || (97 <=? n) && (n <=? 122)
   || (n =? 170) || (n =? 178) || (n =? 179) || (n =? 181) || (n =? 185)
   || (n =? 186) || (188 <=? n) && (n <=? 190)
   || (192 <=? n) && (n <=? 214) || (216 <=? n) && (n <=? 246)
   || (248 <=? n))%N.

(** Lower case of the letters A to Z; every other character is left alone,
    which is all the letters of the pattern need. *)
Definition to_lower (c : ascii) : ascii :=
  let n := N_of_ascii c in
  if ((65 <=? n) && (n <=? 90))%N then ascii_of_N (n + 32) else c.

(** A pattern letter matched under [re.IGNORECASE]. *)
Definition matches_ci (c letter : ascii) : bool := Ascii.eqb (to_lower c) letter.

(** [\s*]: skip the leading whitespace. *)
Fixpoint skip_spaces (s : text) : text :=
  match s with
  | c :: s' => if is_space c then skip_spaces s' else s
  | [] => []
  end.

(** [.*?}]: a closing brace is reached before any newline. *)
Fixpoint closes_on_line (s : text) : bool :=
  match s with
  | [] => false
  | c :: s' =>
    if Ascii.eqb c "}" then true
    else if Ascii.eqb c newline then false
    else closes_on_line s'
  end.

(** The pattern [pmid\s*=\s*{.*?}] matched at the start of [s]. *)
Definition match_pmid_here (s : text) : bool :=
  match s with
  | c1 :: c2 :: c3 :: c4 :: r =>
    matches_ci c1 "p" && matches_ci c2 "m" && matches_ci c3 "i"
    && matches_ci c4 "d"
    && match skip_spaces r with
       | c5 :: r1 =>
         Ascii.eqb c5 "="
         && match skip_spaces r1 with
            | c6 :: r2 => Ascii.eqb c6 "{" && closes_on_line r2
            | [] => false
            end
       | [] => false
       end
  | _ => false
  end.

(** [re.search] tries every position; [\b] before the letter [p] holds when
    the previous character, if any, is not a word character. *)
Fixpoint search_pmid (prev_is_word : bool) (s : text) : bool :=
  match s with
  | [] => false
  | c :: s' =>
    negb prev_is_word && match_pmid_here s || search_pmid (is_word c) s'
  end.

(** [re.search(r'\bpmid\s*=\s*{.*?}', bibtex_entry, re.IGNORECASE)] found a
    match. *)
Definition pmid_exists (bibtex_entry : text) : bool :=
  search_pmid false bibtex_entry.

(** [s.rfind(c)]: the index of the last occurrence, [None] for Python's
    [-1]. *)
Fixpoint rfind_from (c : ascii) (s : text) (i : nat) (found : option nat)
    : option nat :=
  match s with
  | [] => found
  | x :: s' => rfind_from c s' (S i) (if Ascii.eqb x c then Some i else found)
  end.

Definition rfind (c : ascii) (s : text) : option nat := rfind_from c s 0 None.

(** [s.rstrip()]. *)
Definition rstrip (s : text) : text := rev (skip_spaces (rev s)).

(** [s.endswith(c)] for a one-character suffix. *)
Definition endswith (s : text) (c : ascii) : bool :=
  match last s with
  | Some x => Ascii.eqb x c
  | None => false
  end.

(** ** [pmid_to_doi] and [pmid_to_doi_via_crossref] *)

(** An [ArticleId] element of the XML answer: its [IdType] attribute and its
    text, either of which can be absent. *)
Record article_id : Type := { IdType : option string; id_text : option string }.

(** [ET.fromstring(response.text)] followed by [findall('.//ArticleId')]. *)
Inductive xml_body : Type :=
  | XmlParseError
  | XmlArticleIds (ids : list article_id).

(** What [requests.get] does for the [efetch] query. *)
Inductive efetch_reply : Type :=
  | EfetchRaised (e : exn)
  | EfetchReply (status_code : Z) (body : xml_body).

(** The loop over the [ArticleId] elements. *)
Fixpoint find_doi (ids : list article_id) : outcome (option string) :=
  match ids with
  | [] => Ok None
  | a :: rest =>
    if decide (IdType a = Some "doi")
    then
      match id_text a with
      | Some t => Ok (Some ("https://doi.org/" +:+ t))
      | None => Raised TypeError
      end
    else find_doi rest
  end.

Definition pmid_to_doi (reply : efetch_reply) (pmid : string)
    : outcome (option string * option string) :=
  match reply with
  | EfetchRaised e => Raised e
  | EfetchReply status_code body =>
    if status_code =? 200
    then
      match body with
      | XmlArticleIds ids => doi ← find_doi ids; mret (doi, Some pmid)
      | XmlParseError => Ok (None, None)
      end
    else Ok (None, None)
  end.

(** What the CrossRef query does: it raises, or answers with a status and,
    when [data['message']['items']] exists, the [item.get('DOI')] of each
    item. *)
Inductive crossref_reply : Type :=
  | CrossrefRaised
  | CrossrefReply (status_code : Z) (items : option (list (option string))).

Definition pmid_to_doi_via_crossref (reply : crossref_reply) (pmid : string)
    : option string * option string :=
  match reply with
  | CrossrefReply status_code (Some (Some doi :: _)) =>
    if (status_code =? 200) && str_truthy doi
    then (Some ("https://doi.org/" +:+ doi), Some pmid)
    else (None, Some pmid)
  | _ => (None, Some pmid)
  end.

(** ** [append_doi_pmid_to_entry] *)

(** The first lines of the function: Entrez, then CrossRef when Entrez gave
    no DOI. *)
Definition resolve_doi (entrez : efetch_reply) (crossref : crossref_reply)
    (pmid : string) : outcome (option string * option string) :=
  r ← pmid_to_doi entrez pmid;
  match r.1 with
  | None => mret (pmid_to_doi_via_crossref crossref pmid)
  | Some _ => mret r
  end.

(** The f-strings [f'    DOI = {{{doi}}},\n'] and
    [f'    pmid = {{{pmid_out}}},\n']. *)
Definition field_line (name value : string) : text :=
  String.list_ascii_of_string ("    " +:+ name +:+ " = {" +:+ value +:+ "},")
  ++ [newline].

Definition lines_to_add (doi pmid_out : option string) (pmid_exists : bool)
    : list text :=
  (if opt_truthy doi then [field_line "DOI" (default "" doi)] else [])
  ++ (if opt_truthy pmid_out && negb pmid_exists
      then [field_line "pmid" (default "" pmid_out)] else []).

(** The rest of the function, once [doi] and [pmid_out] are known. *)
Definition insert_fields (bibtex_entry : text) (doi pmid_out : option string)
    : text :=
  let lines_to_add := lines_to_add doi pmid_out (pmid_exists bibtex_entry) in
  match lines_to_add with
  | [] => bibtex_entry
  | _ :: _ =>
    match rfind "}" bibtex_entry with
    | None => bibtex_entry ++ concat lines_to_add
    | Some last_brace_pos =>
      let before := rstrip (take last_brace_pos bibtex_entry) in
      let after := drop last_brace_pos bibtex_entry in
      let before := if endswith before "," then before else before ++ [","%char] in
      before ++ [newline] ++ concat lines_to_add ++ after
    end
  end.

Definition append_doi_pmid_to_entry (entrez : efetch_reply)
    (crossref : crossref_reply) (bibtex_entry : text) (pmid : string)
    : outcome text :=
  r ← resolve_doi entrez crossref pmid;
  mret (insert_fields bibtex_entry r.1 r.2).

(** ** The record loop of [ref_gen] *)

(** What the loop accumulates: the entries written to [bib_file], the lines
    written to [pmid_file], the two failure counters, the [errors] list, and
    the requests and sleeps performed. *)
(** An element of [errors]: the message names the PMID and the stage that
    failed, the retrieval from both sources or the write of the sanitized
    entry. *)
Inductive error_entry : Type :=
  | RetrievalFailed (pmid : string)
  | WriteFailed (pmid : string).

Record fetch_state : Type := {
  bib_file : list text;
  pmid_file : list string;
  entrez_fail_count : nat;
  crossref_fail_count : nat;
  errors : list error_entry;
  fetch_log : list event
}.

Definition initial_fetch_state : fetch_state :=
  {| bib_file := []; pmid_file := []; entrez_fail_count := 0;
     crossref_fail_count := 0; errors := []; fetch_log := [] |}.

(** The collaborators of the loop.
    - [pubmed_bib pmid attempt]: what [get_bibtex_for_pmid(pmid)] returns at
      the given attempt, [None] when the export tool failed.
    - [entrez_reply], [crossref_doi_reply]: the answers to the DOI lookups of
      [append_doi_pmid_to_entry], per PMID and per call.
    - [encodable]: whether [bib_file.write] accepts the text, or raises
      [UnicodeEncodeError].
    - [sanitize]: [sanitize_bibtex], the NFKD normalisation followed by the
      lossy ASCII encoding. *)
Record world : Type := {
  pubmed_bib : string → nat → option text;
  entrez_reply : string → nat → efetch_reply;
  crossref_doi_reply : string → nat → crossref_reply;
  encodable : text → bool;
  sanitize : text → text
}.

(** The binding of a global name of [functions.py] that [ref_gen] calls: the
    function it is bound to, or [None] when the module binds no such name, in
    which case the call raises [NameError]. *)
Definition binding : Type := option (string → option text).

(** [functions.py] defines [get_bibtex_for_pmid], [pmid_to_doi],
    [pmid_to_doi_via_crossref] and the other functions modelled here; it
    neither defines nor imports [get_bibtex_via_crossref]. *)
Definition functions_py_get_bibtex_via_crossref : binding := None.

Definition call_global (name : string) (b : binding) (arg : string)
    : outcome (option text) :=
  match b with
  | Some f => Ok (f arg)
  | None => Raised (NameError name)
  end.

(** Truthiness of [bibtex_entry]: neither [None] nor the empty string. *)
Definition entry_truthy (bibtex_entry : option text) : bool :=
  match bibtex_entry with
  | Some (_ :: _) => true
  | _ => false
  end.

Definition initial_wait_time : Z := 3000.
Definition wait_time_increment : Z := 500.
Definition max_retries : nat := 5.

(** The loop [while attempt < max_retries]; [remaining] is
    [max_retries - attempt], and the waiting times are in milliseconds. *)
Fixpoint entrez_attempts (w : world) (pmid : string) (remaining attempt : nat)
    (wait_time : Z) (bibtex_entry : option text) (log : list event)
    : option text * list event :=
  match remaining with
  | O => (bibtex_entry, log)
  | S remaining' =>
    let bibtex_entry := pubmed_bib w pmid attempt in
    let log := log ++ [Request "pubmed-bib" pmid] in
    if entry_truthy bibtex_entry
    then (bibtex_entry, log)
    else entrez_attempts w pmid remaining' (S attempt)
           (wait_time + wait_time_increment) bibtex_entry
           (log ++ [Sleep wait_time])
  end.

Definition add_log (st : fetch_state) (evs : list event) : fetch_state :=
  {| bib_file := bib_file st; pmid_file := pmid_file st;
     entrez_fail_count := entrez_fail_count st;
     crossref_fail_count := crossref_fail_count st;
     errors := errors st; fetch_log := fetch_log st ++ evs |}.

Definition add_written (st : fetch_state) (t : text) : fetch_state :=
  {| bib_file := bib_file st ++ [t ++ [newline; newline]];
     pmid_file := pmid_file st;
     entrez_fail_count := entrez_fail_count st;
     crossref_fail_count := crossref_fail_count st;
     errors := errors st; fetch_log := fetch_log st |}.

Definition add_error (st : fetch_state) (msg : error_entry) : fetch_state :=
  {| bib_file := bib_file st; pmid_file := pmid_file st;
     entrez_fail_count := entrez_fail_count st;
     crossref_fail_count := crossref_fail_count st;
     errors := errors st ++ [msg]; fetch_log := fetch_log st |}.

(** [bib_file.write(t + '\n\n')]. *)
Definition write_entry (w : world) (st : fetch_state) (t : text)
    : outcome fetch_state :=
  if encodable w (t ++ [newline; newline])
  then Ok (add_written st t)
  else Raised UnicodeEncodeError.

(** The handler [except UnicodeEncodeError] of the outer [try]:
    [bibtex_entry] is sanitized, patched and written; a second
    [UnicodeEncodeError] is logged and the entry dropped. *)
Definition write_sanitized (w : world) (st : fetch_state)
    (bibtex_entry : text) (pmid : string) : outcome fetch_state :=
  match
    sanitized ← append_doi_pmid_to_entry (entrez_reply w pmid 1%nat)
                  (crossref_doi_reply w pmid 1%nat)
                  (sanitize w bibtex_entry) pmid;
    write_entry w st sanitized
  with
  | Ok st' => Ok st'
  | Raised UnicodeEncodeError => Ok (add_error st (WriteFailed pmid))
  | Raised e => Raised e
  end.

(** The outer [try] block that patches and writes the entry. When the write
    raises, [bibtex_entry] already holds the patched text. An exception other
    than [UnicodeEncodeError] leaves the loop. *)
Definition patch_and_write (w : world) (st : fetch_state)
    (bibtex_entry : text) (pmid : string) : outcome fetch_state :=
  match
    append_doi_pmid_to_entry (entrez_reply w pmid 0%nat)
      (crossref_doi_reply w pmid 0%nat) bibtex_entry pmid
  with
  | Raised UnicodeEncodeError => write_sanitized w st bibtex_entry pmid
  | Raised e => Raised e
  | Ok patched =>
    match write_entry w st patched with
    | Ok st' => Ok st'
    | Raised UnicodeEncodeError => write_sanitized w st patched pmid
    | Raised e => Raised e
    end
  end.

(** The body of [for pmid in pbar]. *)
Definition fetch_one (crossref : binding) (w : world) (st : fetch_state)
    (pmid : string) : outcome fetch_state :=
  let st :=
    {| bib_file := bib_file st; pmid_file := pmid_file st ++ [pmid];
       entrez_fail_count := entrez_fail_count st;
       crossref_fail_count := crossref_fail_count st;
       errors := errors st; fetch_log := fetch_log st |} in
  let '(bibtex_entry, log) :=
    entrez_attempts w pmid max_retries 0 initial_wait_time None [] in
  let st := add_log st log in
  if entry_truthy bibtex_entry
  then patch_and_write w st (default [] bibtex_entry) pmid
  else
    let st :=
      {| bib_file := bib_file st; pmid_file := pmid_file st;
         entrez_fail_count := S (entrez_fail_count st);
         crossref_fail_count := crossref_fail_count st;
         errors := errors st; fetch_log := fetch_log st |} in
    bibtex_entry ← call_global "get_bibtex_via_crossref" crossref pmid;
    let st := add_log st [Request "crossref" pmid] in
    if entry_truthy bibtex_entry
    then patch_and_write w st (default [] bibtex_entry) pmid
    else
      Ok (add_error
            {| bib_file := bib_file st; pmid_file := pmid_file st;
               entrez_fail_count := entrez_fail_count st;
               crossref_fail_count := S (crossref_fail_count st);
               errors := errors st; fetch_log := fetch_log st |}
            (RetrievalFailed pmid)).

(** The loop over [pmids_with_at_least_X_citations]: the first exception
    that leaves an iteration ends the run. *)
Fixpoint fetch_all (crossref : binding) (w : world) (st : fetch_state)
    (pmids : list string) : outcome fetch_state :=
  match pmids with
  | [] => Ok st
  | pmid :: rest =>
    st' ← fetch_one crossref w st pmid;
    fetch_all crossref w st' rest
  end.

(** [ref_gen] from the citation counts on: the threshold filter, then the
    record loop over the kept identifiers. *)
Definition ref_gen (crossref : binding) (w : world)
    (counted : list (string * option Z)) (threshold : Z) : outcome fetch_state :=
  let pmids_with_at_least_X_citations := (threshold_filter threshold counted).1 in
  fetch_all crossref w initial_fetch_state pmids_with_at_least_X_citations.

(** ** Reading the PMID list and counting citations in [ref_gen] *)

(** [line.strip()] on the characters of a line. *)
Definition strip_text (s : text) : text := rstrip (skip_spaces s).

Definition strip (s : string) : string :=
  String.string_of_list_ascii (strip_text (String.list_ascii_of_string s)).

(** The loop [for line in file]: [pmids.append(str(line.strip()))]. *)
Definition read_pmids (lines : list string) : list string := strip <$> lines.

(** The loop [for pmid in pmids] of the citation check as a whole: the call
    [get_citations(pmid)] with its default bound, the classification of
    [threshold_step], and [time.sleep(3.0)]. [elink i] is the service as it
    behaves during iteration [i]; the result is the pair of lists and the
    events of the loop. *)
Fixpoint citation_loop (elink : nat → nat → outcome (list link_set))
    (threshold : Z) (i : nat) (pmids : list string)
    (acc : list string * list string) (log : list event)
    : list string * list string * list event :=
  match pmids with
  | [] => (acc, log)
  | pmid :: rest =>
    let '(citation_count, evs) :=
      get_citations (elink i) (PyStr pmid) default_max_retries in
    citation_loop elink threshold (S i) rest
      (threshold_step threshold acc (pmid, citation_count))
      (log ++ evs ++ [Sleep 3000])
  end.

(** ** [combine_bib_files] and the combined file of [ref_generator.py] *)

(** The loop [combined_entries.extend(bib_database.entries)] over the files,
    each file given by the entries [bibtexparser] loads from it, and then
    [bibtexparser.dump] of the combined database. The order in which [dump]
    writes the entries is decided by the writer of the library, which is not
    part of the repository: [reload] stands for it, giving the entries of a
    database as they are loaded again from the file that [dump] wrote. The
    result is the content of [combined_bib_file.bib]. *)
Definition combine_bib_files (reload : list entry → list entry)
    (files : list (list entry)) : list entry :=
  let combined_entries :=
    foldl (λ combined_entries entries, combined_entries ++ entries) [] files in
  reload combined_entries.

(** The script combines the files when there is more than one and takes
    [file_paths[0]], a file as [ref_gen] wrote it, otherwise. *)
Definition combined_path (reload : list entry → list entry)
    (files : list (list entry)) : outcome (list entry) :=
  if (1 <? length files)%nat
  then Ok (combine_bib_files reload files)
  else
    match files with
    | f :: _ => Ok f
    | [] => Raised IndexError
    end.

(** The combined file handed to [remove_duplicates]; the result is the list
    [unique_entries]. *)
Definition finalize (reload : list entry → list entry)
    (efetch : option string → outcome string)
    (files : list (list entry)) : outcome (list entry) :=
  entries ← combined_path reload files;
  remove_duplicates efetch entries.

(** ** The report of [check_info_check_duplicates] *)

(** [sum(1 for e in entries if not e.get(field))]. *)
Definition count_missing (field : string) (entries : list entry) : nat :=
  length (filter (λ e : entry, opt_truthy (e !! field) = false) entries).

(** The figures the report is built from. After the three passes the
    variable [entries] holds the survivors, and everything below the passes
    is computed from it. *)
Record audit_report : Type := {
  original_total : nat;                  (* len(entries) before the passes *)
  remaining : nat;                       (* len(entries) after them *)
  first_id : option (option string);     (* ids[0] if ids, else 'N/A' *)
  first_pmids : list (option string);    (* pmids[:3] *)
  first_dois : list (option string);     (* dois[:3] *)
  missing_fields_counts : list (string * nat);
  removed_ids : gset string;
  removed_pmids : gset string;
  removed_dois : gset string;
  warning : bool;                        (* the report opens with the warning *)
  total_removed : Z                      (* original_total - len(entries) *)
}.

Definition audit_report_of (entries : list entry) : audit_report :=
  let '(survivors, dup_ids, dup_pmids, dup_dois) := Audit.three_passes entries in
  {| original_total := length entries;
     remaining := length survivors;
     first_id := (λ e : entry, e !! "ID") <$> head survivors;
     first_pmids := take 3 ((λ e : entry, e !! "pmid") <$> survivors);
     first_dois := take 3 ((λ e : entry, e !! "doi") <$> survivors);
     missing_fields_counts :=
       (λ field, (field, count_missing field survivors))
       <$> ["journal"; "volume"; "pages"; "pmid"; "doi"];
     removed_ids := dup_ids;
     removed_pmids := dup_pmids;
     removed_dois := dup_dois;
     warning := bool_decide (dup_ids ≠ ∅ ∨ dup_pmids ≠ ∅ ∨ dup_dois ≠ ∅);
     total_removed := Z.of_nat (length entries) - Z.of_nat (length survivors) |}.

(** The function ends by printing the report; with [save_txt] it then
    writes the report to [save_folder], or raises [ValueError] when no folder
    was given. *)
Inductive audit_outcome : Type :=
  | AuditPrinted (report : audit_report) (saved : bool)
  | AuditValueError (report : audit_report).

Definition check_info_check_duplicates (entries : list entry) (save_txt : bool)
    (save_folder : option string) : audit_outcome :=
  let report := audit_report_of entries in
  if save_txt
  then
    if opt_truthy save_folder
    then AuditPrinted report true
    else AuditValueError report
  else AuditPrinted report false.

(* ===================================================================== *)
(** * Part II: vocabulary of the properties and sample data              *)
(* ===================================================================== *)

(** The first [k] requests of a call all raise [HTTPError]. *)
Definition http_failures (elink : nat → outcome (list link_set)) (k : nat) : Prop :=
  ∀ i : nat, (i < k)%nat → elink i = Raised HTTPError.

(** The events of [k] failed attempts that were each followed by a retry. *)
Definition retry_log (pmid : string) (k : nat) : list event :=
  concat (replicate k [Request "elink" pmid; Sleep 2000]).

(** A service that is down: every request raises [HTTPError]. *)
Definition elink_down : nat → outcome (list link_set) := λ _, Raised HTTPError.

(** The group key of an entry. *)
Definition pmid_of (e : entry) : option string := e !! "pmid".

(** What the grouping loop maintains: the keys are pairwise distinct, no
    group is empty, and a group holds only entries with its key. *)
Definition groups_wf (groups : list (option string * list entry)) : Prop :=
  NoDup groups.*1
  ∧ Forall (λ g, g.2 ≠ [] ∧ Forall (λ e, pmid_of e = g.1) g.2) groups.

(** The sort key of the fallback. *)
Definition year_of (e : entry) : option string := e !! "year".

(** [e] is the first entry of [l] with the least key: the entries before it
    have a strictly greater key, the entries after it a key that is not
    smaller. *)
Definition first_min (key : entry → option string) (l : list entry)
    (e : entry) : Prop :=
  ∃ l1 l2 y,
    l = l1 ++ e :: l2
    ∧ key e = Some y
    ∧ Forall (λ e', ∃ y', key e' = Some y' ∧ String.ltb y y' = true) l1
    ∧ Forall (λ e', ∃ y', key e' = Some y' ∧ String.ltb y' y = false) l2.

(** Sample records: two exports of the document 555. *)
Definition study_a_2021 : entry :=
  list_to_map [("ID", "smith2021"); ("pmid", "555"); ("title", "Study A");
               ("year", "2021")].
Definition study_a_2019 : entry :=
  list_to_map [("ID", "smith2019"); ("pmid", "555"); ("title", "Study A");
               ("year", "2019")].
Definition study_b_2019 : entry :=
  list_to_map [("ID", "jones2019"); ("pmid", "555"); ("title", "Study B");
               ("year", "2019")].

(** Title services: one that finds no title, one that raises, one that
    answers "Study A". *)
Definition efetch_no_title : option string → outcome string := λ _, Ok "".
Definition efetch_raises : option string → outcome string :=
  λ _, Raised OtherException.
Definition efetch_study_a : option string → outcome string := λ _, Ok "Study A".

(** Sample records without a [pmid] field. *)
Definition no_pmid_2019 : entry :=
  list_to_map [("ID", "lee2019"); ("title", "Survey A"); ("year", "2019")].
Definition no_pmid_2021 : entry :=
  list_to_map [("ID", "kim2021"); ("title", "Trial B"); ("year", "2021")].

(** The [pmid] values of a record set that are present and not empty. *)
Definition nonempty_pmids (entries : list entry) : list (option string) :=
  filter (λ k, opt_truthy k) (pmid_of <$> entries).

(** The entry has no value, or an empty one, under [key]: Python's
    [not entry.get(key)]. *)
Definition no_value (key : string) (e : entry) : Prop :=
  opt_truthy (e !! key) = false.

Global Instance no_value_dec key e : Decision (no_value key e).
Proof. unfold no_value. apply _. Defined.

(** A record as the export tool prints it, and answers of the two services. *)
Definition sample_record : text :=
  String.list_ascii_of_string "@article{k2020,
  title = {T},
  year = {2020}
}".

Definition entrez_with_doi : efetch_reply :=
  EfetchReply 200
    (XmlArticleIds [{| IdType := Some "pubmed"; id_text := Some "123" |};
                    {| IdType := Some "doi"; id_text := Some "10.1/x" |}]).

(** All five attempts of the export tool fail for [pmid]. *)
Definition primary_exhausted (w : world) (pmid : string) : Prop :=
  ∀ attempt : nat, (attempt < 5)%nat →
    entry_truthy (pubmed_bib w pmid attempt) = false.

(** The events of five failed attempts: the waits grow from 3 s by 0.5 s. *)
Definition exhausted_log (pmid : string) : list event :=
  [Request "pubmed-bib" pmid; Sleep 3000; Request "pubmed-bib" pmid; Sleep 3500;
   Request "pubmed-bib" pmid; Sleep 4000; Request "pubmed-bib" pmid; Sleep 4500;
   Request "pubmed-bib" pmid; Sleep 5000].

(** The state in which the fallback is called. *)
Definition before_fallback (st : fetch_state) (pmid : string) : fetch_state :=
  {| bib_file := bib_file st; pmid_file := pmid_file st ++ [pmid];
     entrez_fail_count := S (entrez_fail_count st);
     crossref_fail_count := crossref_fail_count st;
     errors := errors st;
     fetch_log := fetch_log st ++ exhausted_log pmid |}.

(** A run in which the export tool always fails. *)
Definition world_tool_down : world :=
  {| pubmed_bib := λ _ _, None;
     entrez_reply := λ _ _, EfetchReply 200 (XmlArticleIds []);
     crossref_doi_reply := λ _ _, CrossrefRaised;
     encodable := λ _, true;
     sanitize := λ t, t |}.

(** The counts the citation check obtains, identifier by identifier. *)
Fixpoint counted_by (elink : nat → nat → outcome (list link_set)) (i : nat)
    (pmids : list string) : list (string * option Z) :=
  match pmids with
  | [] => []
  | pmid :: rest =>
    (pmid, (get_citations (elink i) (PyStr pmid) default_max_retries).1)
    :: counted_by elink (S i) rest
  end.

(** The events of the citation check. *)
Fixpoint citation_log (elink : nat → nat → outcome (list link_set)) (i : nat)
    (pmids : list string) : list event :=
  match pmids with
  | [] => []
  | pmid :: rest =>
    (get_citations (elink i) (PyStr pmid) default_max_retries).2
    ++ [Sleep 3000] ++ citation_log elink (S i) rest
  end.

Definition is_request (ev : event) : bool :=
  match ev with
  | Request _ _ => true
  | Sleep _ => false
  end.

(** The number of requests, and of sleeps of a given length, in a log. *)
Definition count_requests (log : list event) : nat :=
  length (filter (λ ev, is_request ev = true) log).

Definition count_sleeps (ms : Z) (log : list event) : nat :=
  length (filter (λ ev, ev = Sleep ms) log).

(** A service that has no links for anything. *)
Definition elink_no_links : nat → nat → outcome (list link_set) :=
  λ _ _, Ok [].

(** The text holds, at a word boundary, the name [pmid] in any letter case,
    optional whitespace, an equals sign, optional whitespace, an opening
    brace, a value without a line break, and a closing brace. *)
Definition pmid_field_shape (s : text) : Prop :=
  ∃ pre name sp1 sp2 v post,
    s = pre ++ name ++ sp1 ++ "="%char :: sp2 ++ "{"%char :: v ++ "}"%char :: post
    ∧ match last pre with Some c => is_word c = false | None => True end
    ∧ to_lower <$> name = ["p"; "m"; "i"; "d"]%char
    ∧ Forall (λ x, is_space x = true) sp1
    ∧ Forall (λ x, is_space x = true) sp2
    ∧ newline ∉ v.

(** An answer of Entrez without any article identifier. *)
Definition entrez_without_doi : efetch_reply := EfetchReply 200 (XmlArticleIds []).

(** The entries of a record set that carry a given [pmid] value, in order. *)
Definition with_pmid (k : option string) (entries : list entry) : list entry :=
  filter (λ e, pmid_of e = k) entries.

(** The distinct elements of a list in the order of their first occurrence
    ([remove_dups] keeps the last occurrence of each element). *)
Definition first_occurrences {A} `{EqDecision A} (l : list A) : list A :=
  rev (remove_dups (rev l)).

(** A title service that answers only for the identifier 555. *)
Definition efetch_only_555 : option string → outcome string :=
  λ k, if decide (k = Some "555") then Ok "Study A" else Raised OtherException.

(** The value of an entry under a key when it counts for the duplicate
    check: present and not empty. *)
Definition value_of (key : string) (e : entry) : option string :=
  match e !! key with
  | Some v => if str_truthy v then Some v else None
  | None => None
  end.

(** The values of a list of entries under a key, in order. *)
Definition values (key : string) (entries : list entry) : list string :=
  omap (value_of key) entries.

(** How often a value occurs in a list. *)
Definition occurrences (v : string) (l : list string) : nat :=
  length (filter (λ w, w = v) l).

(** What the loop of a pass has established after the entries [entries]:
    the state is [(seen, new_entries, removed_keys)]. *)
Definition audit_inv (key : string) (entries : list entry)
    (st : gset string * list entry * gset string) : Prop :=
  (∀ v, v ∈ st.1.1 ↔ v ∈ values key entries)
  ∧ st.1.2 `sublist_of` entries
  ∧ NoDup (values key st.1.2)
  ∧ (∀ v, v ∈ values key entries → v ∈ values key st.1.2)
  ∧ (∀ v, v ∈ st.2 ↔ (2 ≤ occurrences v (values key entries))%nat)
  ∧ (st.2 = ∅ → st.1.2 = entries)
  ∧ (st.2 ≠ ∅ → (length st.1.2 < length entries)%nat).

(** Sample records for the duplicate check: two records with the entry key
    k1, and a third record that repeats the identifier 555. *)
Definition audit_first : entry :=
  list_to_map [("ID", "k1"); ("pmid", "555"); ("journal", "J")].
Definition audit_same_id : entry :=
  list_to_map [("ID", "k1"); ("pmid", "556")].
Definition audit_same_pmid : entry :=
  list_to_map [("ID", "k3"); ("pmid", "555"); ("journal", "J")].

(** The events of [j] failed attempts of the export tool: the wait after
    attempt [i] is 3 s plus [i] times 0.5 s. *)
Definition backoff_log (pmid : string) (j : nat) : list event :=
  concat ((λ i : nat, [Request "pubmed-bib" pmid;
                       Sleep (3000 + 500 * Z.of_nat i)]) <$> seq 0 j).

(** The time slept in a log, in milliseconds. *)
Definition total_sleep (log : list event) : Z :=
  foldr (λ ev acc, match ev with Sleep ms => ms + acc | Request _ _ => acc end)
    0 log.

(** What the record loop has done between two states while it processed the
    identifiers [pmids]: each identifier was written to the identifier file,
    and gave one entry in the record file or one entry in the error list;
    the failure counters grew by at most one per identifier, the CrossRef
    counter no more than the Entrez counter; and what was added to the
    record file is encodable. *)
Definition accounted (w : world) (st st' : fetch_state) (pmids : list string)
    : Prop :=
  pmid_file st' = pmid_file st ++ pmids
  ∧ (∃ written logged,
       bib_file st' = bib_file st ++ written
       ∧ errors st' = errors st ++ logged
       ∧ Forall (λ t, encodable w t = true) written
       ∧ (length written + length logged = length pmids)%nat)
  ∧ (∃ n m : nat,
       entrez_fail_count st' = (entrez_fail_count st + n)%nat
       ∧ crossref_fail_count st' = (crossref_fail_count st + m)%nat
       ∧ (m ≤ n)%nat ∧ (n ≤ length pmids)%nat).

(** A run in which the export tool answers at the third attempt and the
    record file accepts everything. *)
Definition world_third_attempt : world :=
  {| pubmed_bib := λ _ attempt,
       if (attempt <? 2)%nat then None else Some sample_record;
     entrez_reply := λ _ _, entrez_with_doi;
     crossref_doi_reply := λ _ _, CrossrefRaised;
     encodable := λ _, true;
     sanitize := λ t, t |}.

(** The nesting of braces along a text that starts at depth [depth]:
    [None] when a closing brace comes with nothing open. *)
Fixpoint brace_depth (depth : nat) (s : text) : option nat :=
  match s with
  | [] => Some depth
  | c :: s' =>
    if Ascii.eqb c "{" then brace_depth (S depth) s'
    else if Ascii.eqb c "}"
         then match depth with
              | O => None
              | S d => brace_depth d s'
              end
         else brace_depth depth s'
  end.

(** Every brace of the text has its partner. *)
Definition balanced (s : text) : Prop := brace_depth 0 s = Some 0%nat.

(** A writer that puts the entries in the order of their keys, lower case,
    as the writer of [bibtexparser] does by default; entries with the same
    key keep their order. *)
Definition ID_key (e : entry) : string :=
  String.string_of_list_ascii
    (to_lower <$> String.list_ascii_of_string (default "" (e !! "ID"))).

Definition ID_le (a b : entry) : Prop := String.leb (ID_key a) (ID_key b) = true.

Global Instance ID_le_dec : RelDecision ID_le.
Proof. intros a b. unfold ID_le. apply _. Defined.

Definition reload_by_ID (entries : list entry) : list entry :=
  merge_sort ID_le entries.

(* ===================================================================== *)
(** * Part III: properties                                                *)
(* ===================================================================== *)

(** ** The citation counter *)

Section citation_counter.

(** The service and the PMID of one call. *)
Context (elink : nat → outcome (list link_set)) (pmid : string).

Lemma retry_log_S k :
  retry_log pmid (S k) = [Request "elink" pmid; Sleep 2000] ++ retry_log pmid k.
Proof. reflexivity. Qed.

Lemma retry_log_snoc k :
  retry_log pmid (S k) = retry_log pmid k ++ [Request "elink" pmid; Sleep 2000].
Proof.
  induction k as [|k IH]; [done|].
  rewrite (retry_log_S (S k)), IH at 1.
  rewrite (retry_log_S k). by rewrite <- app_assoc.
Qed.

(** As long as the requests raise [HTTPError] and the bound is not reached,
    the loop sleeps two seconds and goes to the next iteration. *)
Lemma get_citations_loop_skip (m : nat) k :
  ∀ (s n : nat) log,
    (∀ i : nat, (s ≤ i)%nat → (i < s + k)%nat → elink i = Raised HTTPError) →
    (s + k < m)%nat →
    get_citations_loop elink pmid (Z.of_nat m) (seq s (k + n)) log
    = get_citations_loop elink pmid (Z.of_nat m) (seq (s + k) n)
        (log ++ retry_log pmid k).
Proof.
  induction k as [|k IH]; intros s n log Hhttp Hlt.
  - unfold retry_log. simpl. by rewrite Nat.add_0_r, app_nil_r.
  - simpl. rewrite (Hhttp s) by lia.
    assert ((Z.of_nat s <? Z.of_nat m - 1) = true) as -> by (apply Z.ltb_lt; lia).
    rewrite IH; [|intros i Hi Hi'; apply Hhttp; lia|lia].
    rewrite retry_log_S. replace (S s + k)%nat with (s + S k)%nat by lia.
    f_equal. by rewrite <- !app_assoc.
Qed.

Lemma get_citations_valid (m : nat) :
  pmid ≠ "" →
  get_citations elink (PyStr pmid) m
  = get_citations_loop elink pmid (Z.of_nat m) (seq 0 m) [].
Proof.
  intros Hne. unfold get_citations. simpl.
  destruct (String.eqb_spec pmid ""); [done|]. reflexivity.
Qed.

(** The loop after [k] retried failures, for any bound [m > k]: attempt [k]
    decides the result. *)
Lemma get_citations_after_retries (m k : nat) :
  pmid ≠ "" → http_failures elink k → (k < m)%nat →
  get_citations elink (PyStr pmid) m
  = match elink k with
    | Ok record => (Some (count_links record), retry_log pmid k ++ [Request "elink" pmid])
    | Raised HTTPError =>
      if Z.of_nat k <? Z.of_nat m - 1
      then get_citations_loop elink pmid (Z.of_nat m) (seq (S k) (m - S k))
             (retry_log pmid (S k))
      else (None, retry_log pmid k ++ [Request "elink" pmid])
    | Raised IndexError | Raised KeyError =>
      (Some 0, retry_log pmid k ++ [Request "elink" pmid])
    | Raised _ => (None, retry_log pmid k ++ [Request "elink" pmid])
    end.
Proof.
  intros Hne Hhttp Hlt. rewrite get_citations_valid by done.
  replace m with (k + S (m - S k))%nat at 2 by lia.
  rewrite (get_citations_loop_skip m k 0); [|intros; apply Hhttp; lia|lia].
  simpl. destruct (elink k) as [record|[]]; try reflexivity.
  destruct (Z.of_nat k <? Z.of_nat m - 1); [|reflexivity].
  by rewrite retry_log_snoc, <- app_assoc.
Qed.

End citation_counter.

(** C5. With the default bound of three attempts, [get_citations] on a valid
    PMID: retries an [HTTPError] after a two-second sleep and returns the
    failure signal when the third attempt fails too; returns the count 0 at
    once when an attempt raises [IndexError] or [KeyError] or answers with an
    empty record; returns the failure signal at once on any other exception;
    and the failure signal is not the count 0. *)
Theorem get_citations_retry_policy
    (elink : nat → outcome (list link_set)) (pmid : string) (k : nat) :
  pmid ≠ "" → http_failures elink k →
  let run := get_citations elink (PyStr pmid) default_max_retries in
  let attempt := retry_log pmid k ++ [Request "elink" pmid] in
  (k = 3%nat →
     run = (failure_signal,
            [Request "elink" pmid; Sleep 2000; Request "elink" pmid; Sleep 2000;
             Request "elink" pmid]))
  ∧ ((k < 3)%nat → ∀ record, elink k = Ok record →
       run = (Some (count_links record), attempt))
  ∧ ((k < 3)%nat → elink k = Ok [] → run = (zero_citations, attempt))
  ∧ ((k < 3)%nat → elink k = Raised IndexError ∨ elink k = Raised KeyError →
       run = (zero_citations, attempt))
  ∧ ((k < 3)%nat → ∀ e, elink k = Raised e →
       e ≠ HTTPError → e ≠ IndexError → e ≠ KeyError →
       run = (failure_signal, attempt))
  ∧ failure_signal ≠ zero_citations.
Proof.
  intros Hne Hhttp run attempt. subst run attempt. unfold default_max_retries.
  repeat split.
  - intros ->.
    rewrite (get_citations_after_retries elink pmid 3 2) by
      (try done; try lia; intros i Hi; apply Hhttp; lia).
    rewrite (Hhttp 2%nat) by lia. reflexivity.
  - intros Hk record Hrec.
    rewrite (get_citations_after_retries elink pmid 3 k) by done.
    by rewrite Hrec.
  - intros Hk Hrec.
    rewrite (get_citations_after_retries elink pmid 3 k) by done.
    by rewrite Hrec.
  - intros Hk [He|He];
      rewrite (get_citations_after_retries elink pmid 3 k) by done;
      by rewrite He.
  - intros Hk e He H1 H2 H3.
    rewrite (get_citations_after_retries elink pmid 3 k) by done.
    rewrite He. by destruct e.
  - discriminate.
Qed.

Lemma get_citations_retry_policy_witness :
  get_citations elink_down (PyStr "1003") default_max_retries
  = (failure_signal,
     [Request "elink" "1003"; Sleep 2000; Request "elink" "1003"; Sleep 2000;
      Request "elink" "1003"]).
Proof.
  assert (H1 : ("1003" : string) ≠ "") by discriminate.
  assert (H2 : http_failures elink_down 3) by (intros i _; reflexivity).
  exact (proj1 (get_citations_retry_policy elink_down "1003" 3 H1 H2) eq_refl).
Defined.

(** C9. On the empty string and on any value that is not a string,
    [get_citations] returns the determined count 0 and performs no request
    and no sleep; in particular it does not return the failure signal. *)
Theorem get_citations_invalid_input
    (elink : nat → outcome (list link_set)) (pmid : pyval) (max_retries : nat) :
  pmid = PyStr "" ∨ isinstance_str pmid = false →
  get_citations elink pmid max_retries = (zero_citations, [])
  ∧ (get_citations elink pmid max_retries).1 ≠ failure_signal.
Proof.
  intros H.
  assert (Hrun : get_citations elink pmid max_retries = (zero_citations, [])).
  { unfold get_citations. destruct H as [->|H]; [reflexivity|].
    rewrite H, orb_true_r. reflexivity. }
  split; [done|]. rewrite Hrun. discriminate.
Qed.

Lemma get_citations_invalid_input_witness :
  get_citations elink_down (PyStr "") 3 = (zero_citations, [])
  ∧ (get_citations elink_down (PyStr "") 3).1 ≠ failure_signal.
Proof.
  apply (get_citations_invalid_input elink_down (PyStr "") 3). left. reflexivity.
Defined.

(** ** The threshold filter *)

Lemma threshold_filter_foldl t l kept rejected :
  foldl (threshold_step t) (kept, rejected) l
  = (kept ++ (filter (λ p, passes t p.2) l).*1,
     rejected ++ (filter (λ p, ¬ passes t p.2) l).*1).
Proof.
  revert kept rejected.
  induction l as [|[pmid c] l IH]; intros kept rejected; simpl.
  - by rewrite !app_nil_r.
  - rewrite !filter_cons. simpl.
    destruct c as [c|]; simpl; [destruct (t <=? c); simpl|];
      rewrite IH; repeat case_decide; simpl in *; try tauto;
      by rewrite <- app_assoc.
Qed.

(** The two lists are the input identifiers whose count passes, and those
    whose count does not, each in input order. *)
Lemma threshold_filter_spec t l :
  threshold_filter t l
  = ((filter (λ p, passes t p.2) l).*1, (filter (λ p, ¬ passes t p.2) l).*1).
Proof. unfold threshold_filter. by rewrite threshold_filter_foldl. Qed.

Lemma filter_passes_split {A} (P : A → Prop) `{∀ x, Decision (P x)} (l : list A) :
  filter P l ++ filter (λ x, ¬ P x) l ≡ₚ l.
Proof.
  induction l as [|x l IH]; [done|].
  destruct (decide (P x)).
  - rewrite filter_cons_True, (filter_cons_False (λ x, ¬ P x)) by tauto.
    simpl. by rewrite IH.
  - rewrite filter_cons_False, (filter_cons_True (λ x, ¬ P x)) by tauto.
    rewrite <- Permutation_middle. by rewrite IH.
Qed.

(** C4 (as the code has it). The kept list holds, in input order, exactly
    the occurrences whose count is determined and at least the threshold; an
    occurrence whose count is the failure signal goes to the rejected list;
    kept and rejected together are a rearrangement of the input identifiers;
    and no identifier is on both sides as long as no identifier occurs in the
    input once with a passing and once with a non-passing count. *)
Theorem threshold_filter_partition (t : Z) (l : list (string * option Z)) :
  let kept := (threshold_filter t l).1 in
  let rejected := (threshold_filter t l).2 in
  kept = (filter (λ p, passes t p.2) l).*1
  ∧ rejected = (filter (λ p, ¬ passes t p.2) l).*1
  ∧ (∀ id, id ∈ kept ↔ ∃ c, (id, Some c) ∈ l ∧ t ≤ c)
  ∧ (∀ id, (id, failure_signal) ∈ l → id ∈ rejected)
  ∧ kept ++ rejected ≡ₚ l.*1
  ∧ ((∀ id c c', (id, c) ∈ l → (id, c') ∈ l → passes t c = passes t c') →
     ∀ id, id ∈ kept → id ∉ rejected).
Proof.
  intros kept rejected. subst kept rejected.
  rewrite threshold_filter_spec. simpl.
  split; [done|]. split; [done|]. repeat split.
  - intros Hin. apply list_elem_of_fmap in Hin as ([id' c] & -> & Hin).
    apply list_elem_of_filter in Hin as [Hp Hin]. simpl in *.
    destruct c as [c|]; [|done]. exists c. split; [done|].
    apply Z.leb_le. by apply Is_true_true.
  - intros (c & Hin & Hc). apply list_elem_of_fmap. exists (id, Some c).
    split; [done|]. apply list_elem_of_filter. split; [|done].
    simpl. apply Is_true_true. by apply Z.leb_le.
  - intros id Hin. apply list_elem_of_fmap. exists (id, None).
    split; [done|]. apply list_elem_of_filter. split; [|done]. simpl. tauto.
  - rewrite <- fmap_app. by rewrite filter_passes_split.
  - intros Hfun id Hk Hr.
    apply list_elem_of_fmap in Hk as ([id1 c1] & Heq1 & Hk).
    apply list_elem_of_fmap in Hr as ([id2 c2] & Heq2 & Hr).
    apply list_elem_of_filter in Hk as [Hp1 Hk].
    apply list_elem_of_filter in Hr as [Hp2 Hr].
    simpl in *. subst id1 id2. apply Hp2.
    by rewrite <- (Hfun id c1 c2 Hk Hr).
Qed.

(** The scenario of the specification: counts 15, 3 and a failure against
    the threshold 10. *)
Lemma threshold_filter_partition_witness :
  threshold_filter 10 [("1001", Some 15); ("1002", Some 3); ("1003", None)]
  = (["1001"], ["1002"; "1003"])
  ∧ ∀ id, id ∈ (threshold_filter 10
                  [("1001", Some 15); ("1002", Some 3); ("1003", None)]).1 →
          id ∉ (threshold_filter 10
                  [("1001", Some 15); ("1002", Some 3); ("1003", None)]).2.
Proof.
  split; [reflexivity|].
  apply (threshold_filter_partition 10
           [("1001", Some 15); ("1002", Some 3); ("1003", None)]).
  intros id c c' H1 H2.
  repeat (apply elem_of_cons in H1 as [H1|H1]; [inversion H1; subst|]);
    [| | |by apply elem_of_nil in H1];
  repeat (apply elem_of_cons in H2 as [H2|H2]; [inversion H2; subst|]);
    try done; by apply elem_of_nil in H2.
Defined.

(** An identifier listed twice, counted once and failed once, lands on both
    sides: the two lists are not disjoint for every input. *)
Lemma threshold_filter_overlap :
  threshold_filter 10 [("1001", Some 15); ("1001", None)] = (["1001"], ["1001"])
  ∧ ¬ (∀ id, id ∈ (threshold_filter 10 [("1001", Some 15); ("1001", None)]).1 →
             id ∉ (threshold_filter 10 [("1001", Some 15); ("1001", None)]).2).
Proof.
  split; [reflexivity|].
  intros H. apply (H "1001"); simpl; apply list_elem_of_singleton; reflexivity.
Qed.

(** ** Grouping by persistent identifier *)

Lemma groups_append_keys groups k e :
  (groups_append groups k e).*1
  = if decide (k ∈ groups.*1) then groups.*1 else groups.*1 ++ [k].
Proof.
  induction groups as [|[k' es] groups IH].
  - case_decide as Hin; [by inversion Hin|reflexivity].
  - cbn [groups_append]. rewrite fmap_cons. cbn [fst].
    destruct (decide (k' = k)) as [->|Hne].
    + rewrite fmap_cons. cbn [fst].
      rewrite decide_True; [done|]. by left.
    + rewrite fmap_cons, IH. cbn [fst].
      destruct (decide (k ∈ groups.*1)) as [Hin|Hnin].
      * rewrite decide_True; [done|]. by right.
      * rewrite decide_False; [done|].
        intros [?|?]%elem_of_cons; [congruence|done].
Qed.

Lemma groups_append_fresh groups k e :
  k ∉ groups.*1 → groups_append groups k e = groups ++ [(k, [e])].
Proof.
  induction groups as [|[k' es] groups IH]; simpl; intros Hnin; [done|].
  apply not_elem_of_cons in Hnin as [Hne Hnin].
  rewrite decide_False by congruence. by rewrite IH.
Qed.

Lemma groups_append_wf groups e :
  groups_wf groups → groups_wf (groups_append groups (pmid_of e) e).
Proof.
  intros [Hnd Hall]. split.
  - rewrite groups_append_keys. case_decide; [done|].
    apply NoDup_app. split; [done|]. split; [|apply NoDup_singleton].
    intros x Hx ->%list_elem_of_singleton. done.
  - clear Hnd. induction Hall as [|[k es] groups [Hne Hes] Hall IH]; simpl.
    + constructor; [|constructor]. simpl. split; [done|]. by constructor.
    + simpl in *. case_decide as Hk.
      * constructor; [|done]. simpl. split.
        { by destruct es. }
        apply Forall_app. split; [done|]. constructor; [by subst|constructor].
      * constructor; [|done]. by split.
Qed.

Lemma group_by_pmid_snoc entries e :
  group_by_pmid (entries ++ [e])
  = groups_append (group_by_pmid entries) (pmid_of e) e.
Proof. unfold group_by_pmid. by rewrite foldl_app. Qed.

Lemma group_by_pmid_wf entries : groups_wf (group_by_pmid entries).
Proof.
  induction entries as [|e entries IH] using rev_ind.
  - split; simpl; constructor.
  - rewrite group_by_pmid_snoc. by apply groups_append_wf.
Qed.

(** The keys of the groups are the distinct [pmid] values of the entries. *)
Lemma group_by_pmid_keys entries k :
  k ∈ (group_by_pmid entries).*1 ↔ k ∈ pmid_of <$> entries.
Proof.
  induction entries as [|e entries IH] using rev_ind; [done|].
  rewrite group_by_pmid_snoc, groups_append_keys, fmap_app. simpl.
  case_decide as Hin; rewrite !elem_of_app, ?list_elem_of_singleton, IH.
  - split; [tauto|]. intros [?| ->]; [done|]. by apply IH.
  - done.
Qed.

(** Entries with pairwise distinct keys are grouped one by one, in order. *)
Lemma group_by_pmid_NoDup entries :
  NoDup (pmid_of <$> entries) →
  group_by_pmid entries = (λ e, (pmid_of e, [e])) <$> entries.
Proof.
  induction entries as [|e entries IH] using rev_ind; [done|].
  rewrite fmap_app. intros (Hnd & Hfresh & _)%NoDup_app.
  rewrite group_by_pmid_snoc, fmap_app, groups_append_fresh.
  - by rewrite IH.
  - intros Hin%group_by_pmid_keys. apply (Hfresh _ Hin).
    apply list_elem_of_singleton. done.
Qed.

Lemma group_by_pmid_length entries :
  (length (group_by_pmid entries) ≤ length entries)%nat.
Proof.
  rewrite <- (length_fmap fst (group_by_pmid entries)).
  rewrite <- (length_fmap pmid_of entries).
  apply submseteq_length, NoDup_submseteq.
  - apply group_by_pmid_wf.
  - intros k. apply group_by_pmid_keys.
Qed.

Lemma group_by_pmid_length_eq entries :
  length (group_by_pmid entries) = length entries
  ↔ NoDup (pmid_of <$> entries).
Proof.
  split.
  - intros Hlen.
    assert (Hsub : (group_by_pmid entries).*1 ⊆+ pmid_of <$> entries).
    { apply NoDup_submseteq; [apply group_by_pmid_wf|].
      intros k. apply group_by_pmid_keys. }
    apply submseteq_length_Permutation in Hsub.
    + rewrite <- Hsub. apply group_by_pmid_wf.
    + rewrite !length_fmap. lia.
  - intros Hnd. rewrite group_by_pmid_NoDup by done. by rewrite length_fmap.
Qed.

(** ** The order of year strings and [sorted] *)

Lemma ltb_compare a b : String.ltb a b = true ↔ String.compare a b = Lt.
Proof. unfold String.ltb. destruct (String.compare a b); split; congruence. Qed.

Lemma ltb_trans a b c :
  String.ltb a b = true → String.ltb b c = true → String.ltb a c = true.
Proof.
  rewrite !ltb_compare.
  change String.compare with OrderedTypeEx.String_as_OT.cmp.
  rewrite !OrderedTypeEx.String_as_OT.cmp_lt.
  apply OrderedTypeEx.String_as_OT.lt_trans.
Qed.

Lemma ltb_irrefl a : String.ltb a a = false.
Proof.
  unfold String.ltb.
  assert (String.compare a a = Eq) as ->
    by by apply OrderedTypeEx.String_as_OT.cmp_eq.
  done.
Qed.

Lemma ltb_asym a b : String.ltb a b = true → String.ltb b a = false.
Proof.
  intros Hab. destruct (String.ltb b a) eqn:Hba; [|done].
  by rewrite <- (ltb_irrefl a), <- (ltb_trans a b a Hab Hba).
Qed.

Lemma ltb_total a b : String.ltb a b = false → String.ltb b a = false → a = b.
Proof.
  unfold String.ltb. rewrite (String.compare_antisym b a).
  destruct (String.compare a b) eqn:Hc; simpl; try done.
  intros _ _. by apply String.compare_eq_iff.
Qed.

(** "Not below" is transitive: the string order is total. *)
Lemma ltb_false_trans a b c :
  String.ltb a b = false → String.ltb b c = false → String.ltb a c = false.
Proof.
  intros Hab Hbc. destruct (String.ltb a c) eqn:Hac; [|done].
  destruct (String.ltb b a) eqn:Hba.
  - by rewrite (ltb_trans b a c Hba Hac) in Hbc.
  - rewrite (ltb_total a b Hab Hba) in Hac. by rewrite Hac in Hbc.
Qed.

Section sorted.

(** The sort key, [lambda x: x.get('year')] in the code. *)
Context (key : entry → option string).

Lemma sorted_insert_perm x l r :
  sorted_insert key x l = Ok r → r ≡ₚ x :: l.
Proof.
  revert r. induction l as [|y l IH]; simpl; intros r Hr.
  - by inversion Hr.
  - destruct (py_lt (key y) (key x)) as [[]|] eqn:Hlt; simpl in Hr; [| |done].
    + destruct (sorted_insert key x l) as [r'|] eqn:Hins; simpl in Hr; [|done].
      inversion Hr; subst. rewrite (IH r' eq_refl). apply Permutation_swap.
    + by inversion Hr.
Qed.

Lemma sorted_perm l r : sorted key l = Ok r → r ≡ₚ l.
Proof.
  revert r. induction l as [|x l IH]; simpl; intros r Hr.
  - by inversion Hr.
  - destruct (sorted key l) as [s|] eqn:Hs; simpl in Hr; [|done].
    rewrite (sorted_insert_perm _ _ _ Hr). by rewrite (IH s eq_refl).
Qed.

(** [sorted] raises nothing but [TypeError]. *)
Lemma sorted_insert_raises x l e :
  sorted_insert key x l = Raised e → e = TypeError.
Proof.
  induction l as [|y l IH]; simpl; [done|].
  destruct (key y), (key x); simpl; try (by intros [= <-]).
  destruct (String.ltb _ _); simpl; [|done].
  destruct (sorted_insert key x l); simpl; [done|]. intros [= <-]. by apply IH.
Qed.

Lemma sorted_raises l e : sorted key l = Raised e → e = TypeError.
Proof.
  revert e. induction l as [|x l IH]; simpl; intros e; [done|].
  destruct (sorted key l) as [s|e'] eqn:Hs; simpl.
  - apply sorted_insert_raises.
  - intros [= <-]. by apply IH.
Qed.

(** When every key is a string, no comparison raises. *)
Lemma sorted_insert_total x l :
  is_Some (key x) → Forall (λ e, is_Some (key e)) l →
  ∃ r, sorted_insert key x l = Ok r.
Proof.
  intros [kx Hx] Hall. induction Hall as [|y l [ky Hy] Hall [r IH]]; simpl.
  - by eexists.
  - rewrite Hx, Hy. simpl. destruct (String.ltb ky kx); simpl; [|by eexists].
    rewrite IH. simpl. by eexists.
Qed.

Lemma sorted_total l :
  Forall (λ e, is_Some (key e)) l → ∃ r, sorted key l = Ok r.
Proof.
  induction 1 as [|x l Hx Hall [s IH]]; simpl; [by eexists|].
  rewrite IH. simpl. apply sorted_insert_total; [done|].
  by rewrite (sorted_perm _ _ IH).
Qed.

Lemma first_min_lower_bound l e y :
  first_min key l e → key e = Some y →
  Forall (λ e', ∃ y', key e' = Some y' ∧ String.ltb y' y = false) l.
Proof.
  intros (l1 & l2 & y0 & -> & Hy0 & H1 & H2) Hy.
  assert (y0 = y) as -> by congruence.
  apply Forall_app. split.
  - eapply Forall_impl; [exact H1|]. intros e' (y' & Hy' & Hlt).
    exists y'. split; [done|]. by apply ltb_asym.
  - constructor; [|done]. exists y. split; [done|]. apply ltb_irrefl.
Qed.

(** The head of the sorted list is the first entry with the least key. *)
Lemma sorted_head_first_min l :
  l ≠ [] → Forall (λ e, is_Some (key e)) l →
  ∃ e s, sorted key l = Ok (e :: s) ∧ first_min key l e.
Proof.
  intros Hne Hall. induction Hall as [|x l [kx Hx] Hall IH]; [done|]. clear Hne.
  destruct l as [|x' l'].
  - exists x, []. split; [done|]. exists [], [], kx. by repeat split.
  - destruct IH as (h & s & Hs & Hmin); [done|].
    simpl in Hs |- *. rewrite Hs. simpl.
    destruct Hmin as (l1 & l2 & kh & Hl & Hh & H1 & H2).
    rewrite Hh, Hx. simpl. destruct (String.ltb kh kx) eqn:Hlt; simpl.
    + destruct (sorted_insert_total x s) as [r Hr]; [by eexists| |].
      { assert (Hp : h :: s ≡ₚ x' :: l') by by apply (sorted_perm (x' :: l')).
        assert (Hall' : Forall (λ e, is_Some (key e)) (h :: s)) by by rewrite Hp.
        by inversion Hall'. }
      rewrite Hr. simpl. exists h, r. split; [done|].
      exists (x :: l1), l2, kh. rewrite Hl. repeat split; try done.
      constructor; [|done]. by exists kx.
    + exists x, (h :: s). split; [done|].
      exists [], (x' :: l'), kx. repeat split; try done.
      assert (Hlow := first_min_lower_bound (x' :: l') h kh).
      eapply Forall_impl.
      * apply Hlow; [|done]. by exists l1, l2, kh.
      * intros e' (y' & Hy' & Hge). exists y'. split; [done|].
        by apply (ltb_false_trans y' kh kx).
Qed.

(** A missing year among two or more entries makes the sort raise. *)
Lemma sorted_missing_key l :
  (2 ≤ length l)%nat → Exists (λ e, key e = None) l →
  sorted key l = Raised TypeError.
Proof.
  induction l as [|x l IH]; simpl; [lia|]. intros Hlen Hex.
  destruct (sorted key l) as [s|e] eqn:Hs; simpl.
  - assert (Hp : s ≡ₚ l) by by apply sorted_perm.
    destruct s as [|h s].
    { apply Permutation_nil_l in Hp. subst. simpl in Hlen. lia. }
    simpl. destruct (key h) as [kh|] eqn:Hh; [|reflexivity].
    destruct (key x) as [kx|] eqn:Hx; [|reflexivity]. exfalso.
    apply Exists_cons in Hex as [?|Hex]; [congruence|].
    destruct l as [|x1 [|x2 l]]; [simpl in Hlen; lia| |].
    + apply Permutation_singleton_r in Hp. inversion Hp; subst.
      apply Exists_cons in Hex as [?|Hex]; [congruence|by inversion Hex].
    + discriminate IH; [simpl; lia|done].
  - f_equal. by apply (sorted_raises l).
Qed.

End sorted.

(** ** Duplicate resolution *)

Lemma earliest_year_elem entries e : earliest_year entries = Ok e → e ∈ entries.
Proof.
  unfold earliest_year.
  destruct (sorted _ entries) as [[|h s]|] eqn:Hs; simpl; try done.
  intros [= ->]. rewrite <- (sorted_perm _ _ _ Hs). by left.
Qed.

(** A group that is not a singleton: the title is looked up, the first
    member with that title wins, and the year decides otherwise. *)
Lemma resolve_group_unfold efetch pmid entries :
  length entries ≠ 1%nat →
  resolve_group efetch pmid entries
  = match efetch pmid with
    | Raised e => Raised e
    | Ok title =>
      if str_truthy title
      then
        match filter (λ e : entry, e !! "title" = Some title) entries with
        | m :: _ => Ok m
        | [] => earliest_year entries
        end
      else earliest_year entries
    end.
Proof.
  intros Hlen. unfold resolve_group, fetch_title_from_biopython.
  destruct entries as [|e1 [|e2 entries]]; [|done|];
    (destruct (efetch pmid) as [title|]; [|reflexivity]);
    cbn [mbind outcome_bind mret outcome_ret];
    by destruct (str_truthy title) eqn:Ht; rewrite ?Ht.
Qed.

(** The representative of a group is one of its members. *)
Lemma resolve_group_elem efetch pmid entries e :
  resolve_group efetch pmid entries = Ok e → e ∈ entries.
Proof.
  destruct (decide (length entries = 1%nat)) as [Hlen|Hlen].
  - destruct entries as [|e1 [|e2 entries]]; try done.
    intros [= ->]. by left.
  - rewrite resolve_group_unfold by done.
    destruct (efetch pmid) as [title|]; [|done].
    destruct (str_truthy title); [|apply earliest_year_elem].
    destruct (filter _ entries) as [|m ms] eqn:Hf; [apply earliest_year_elem|].
    intros [= ->].
    assert (Hin : e ∈ e :: ms) by (by left).
    rewrite <- Hf in Hin. by apply list_elem_of_filter in Hin as [_ ?].
Qed.

Lemma resolve_groups_Forall2 efetch groups out :
  resolve_groups efetch groups = Ok out →
  Forall2 (λ g e, e ∈ g.2) groups out.
Proof.
  revert out. induction groups as [|[k es] groups IH]; simpl; intros out.
  - intros [= <-]. constructor.
  - destruct (resolve_group efetch k es) as [e|] eqn:He; simpl; [|done].
    destruct (resolve_groups efetch groups) as [r|] eqn:Hr; simpl; [|done].
    intros [= <-]. constructor; [|by apply IH].
    by apply (resolve_group_elem efetch k).
Qed.

(** One entry leaves per group, and it carries the key of its group. *)
Lemma resolve_groups_keys efetch groups out :
  groups_wf groups → resolve_groups efetch groups = Ok out →
  pmid_of <$> out = groups.*1.
Proof.
  intros [_ Hall] Hout. apply resolve_groups_Forall2 in Hout.
  induction Hout as [|[k es] e groups out Hin Hrest IH]; [done|].
  apply Forall_cons in Hall as [[_ Hes] Hall].
  rewrite !fmap_cons, IH by done. cbn [fst snd] in *. f_equal.
  rewrite Forall_forall in Hes. by apply Hes.
Qed.

Lemma resolve_groups_singletons efetch (l : list entry) :
  resolve_groups efetch ((λ e, (pmid_of e, [e])) <$> l) = Ok l.
Proof.
  induction l as [|e l IH]; [done|].
  rewrite fmap_cons. cbn [resolve_groups resolve_group]. by rewrite IH.
Qed.

(** The output never has more entries than the input. *)
Lemma remove_duplicates_length_le efetch entries out :
  remove_duplicates efetch entries = Ok out →
  (length out ≤ length entries)%nat.
Proof.
  intros Hout. apply resolve_groups_Forall2, Forall2_length in Hout.
  rewrite <- Hout. apply group_by_pmid_length.
Qed.

(** The output is as long as the input exactly when the [pmid] values of
    the entries, the missing value [None] included, are pairwise distinct. *)
Lemma remove_duplicates_length_eq efetch entries out :
  remove_duplicates efetch entries = Ok out →
  length out = length entries ↔ NoDup (pmid_of <$> entries).
Proof.
  intros Hout. apply resolve_groups_Forall2, Forall2_length in Hout.
  rewrite <- Hout. apply group_by_pmid_length_eq.
Qed.

(** The [pmid] values of the output are pairwise distinct. *)
Lemma remove_duplicates_NoDup efetch entries out :
  remove_duplicates efetch entries = Ok out → NoDup (pmid_of <$> out).
Proof.
  intros Hout. unfold remove_duplicates in Hout.
  rewrite (resolve_groups_keys efetch _ out (group_by_pmid_wf entries) Hout).
  apply group_by_pmid_wf.
Qed.

(** Without a repeated [pmid] value nothing is looked up and nothing
    changes. *)
Lemma remove_duplicates_NoDup_id efetch entries :
  NoDup (pmid_of <$> entries) → remove_duplicates efetch entries = Ok entries.
Proof.
  intros Hnd. unfold remove_duplicates. rewrite group_by_pmid_NoDup by done.
  apply resolve_groups_singletons.
Qed.

(** C7. Duplicate resolution is idempotent: whenever it returns a list of
    entries, running it on that list returns the same list, whatever the
    title service answers the second time. *)
Theorem remove_duplicates_idempotent
    (efetch efetch' : option string → outcome string) (entries out : list entry) :
  remove_duplicates efetch entries = Ok out →
  remove_duplicates efetch' out = Ok out.
Proof.
  intros Hout. apply remove_duplicates_NoDup_id.
  by apply (remove_duplicates_NoDup efetch entries).
Qed.

Lemma remove_duplicates_idempotent_witness :
  remove_duplicates efetch_no_title [study_a_2021; study_b_2019] = Ok [study_b_2019]
  ∧ remove_duplicates efetch_raises [study_b_2019] = Ok [study_b_2019].
Proof.
  assert (H : remove_duplicates efetch_no_title [study_a_2021; study_b_2019]
              = Ok [study_b_2019]) by (vm_compute; reflexivity).
  split; [exact H|].
  exact (remove_duplicates_idempotent efetch_no_title efetch_raises _ _ H).
Defined.

Lemma filter_none {A} (P : A → Prop) `{∀ x, Decision (P x)} (l : list A) :
  Forall (λ x, ¬ P x) l → filter P l = [].
Proof.
  induction 1 as [|x l Hx Hall IH]; [done|].
  by rewrite filter_cons_False.
Qed.

(** C2 (as the code has it). For a group of more than one entry: when the
    title service returns a non-empty title and some member carries exactly
    that title, the first such member in group order is kept, which is the
    matching member when exactly one matches; when the service returns an
    empty title, or no member carries the returned title, and every member
    has a year, the kept member is the first one in group order among those
    with the least year string. *)
Theorem resolve_group_policy
    (efetch : option string → outcome string) (pmid : option string)
    (entries : list entry) :
  (1 < length entries)%nat →
  (∀ title m rest,
     efetch pmid = Ok title → title ≠ "" →
     filter (λ e : entry, e !! "title" = Some title) entries = m :: rest →
     resolve_group efetch pmid entries = Ok m)
  ∧ (∀ title,
       efetch pmid = Ok title →
       title = "" ∨ Forall (λ e : entry, e !! "title" ≠ Some title) entries →
       Forall (λ e, is_Some (year_of e)) entries →
       ∃ e, resolve_group efetch pmid entries = Ok e
            ∧ first_min year_of entries e).
Proof.
  intros Hlen. split.
  - intros title m rest Hfetch Hne Hf.
    rewrite resolve_group_unfold by lia. rewrite Hfetch.
    unfold str_truthy. destruct (String.eqb_spec title ""); [done|].
    simpl. by rewrite Hf.
  - intros title Hfetch Hcase Hyears.
    destruct (sorted_head_first_min year_of entries) as (e & s & Hs & Hmin);
      [intros ->; simpl in Hlen; lia|done|].
    assert (Hyear : earliest_year entries = Ok e).
    { unfold earliest_year. fold year_of. by rewrite Hs. }
    exists e. split; [|done].
    rewrite resolve_group_unfold by lia. rewrite Hfetch.
    destruct (str_truthy title) eqn:Ht; [|done].
    destruct Hcase as [->|Hno]; [done|].
    by rewrite (filter_none _ _ Hno).
Qed.

(** The two scenarios of the specification: the service answers "Study A",
    and the service has no title so that the years 2021 and 2019 decide. *)
Lemma resolve_group_policy_witness :
  resolve_group efetch_study_a (Some "555") [study_a_2021; study_b_2019]
  = Ok study_a_2021
  ∧ ∃ e, resolve_group efetch_no_title (Some "555") [study_a_2021; study_b_2019]
         = Ok e
         ∧ first_min year_of [study_a_2021; study_b_2019] e.
Proof.
  assert (Hlen : (1 < length [study_a_2021; study_b_2019])%nat) by (simpl; lia).
  destruct (resolve_group_policy efetch_study_a (Some "555") _ Hlen) as [H1 _].
  destruct (resolve_group_policy efetch_no_title (Some "555") _ Hlen) as [_ H2].
  split.
  - apply (H1 "Study A" study_a_2021 []); [reflexivity|discriminate|].
    vm_compute. reflexivity.
  - apply (H2 ""); [reflexivity|by left|].
    repeat constructor; vm_compute; by eexists.
Defined.

(** Two members carry the title the service returns: the code keeps the
    first of them, although the other one has the earlier year. *)
Lemma resolve_group_multiple_matches :
  filter (λ e : entry, e !! "title" = Some "Study A") [study_a_2021; study_a_2019]
  = [study_a_2021; study_a_2019]
  ∧ first_min year_of [study_a_2021; study_a_2019] study_a_2019
  ∧ resolve_group efetch_study_a (Some "555") [study_a_2021; study_a_2019]
    = Ok study_a_2021
  ∧ study_a_2021 ≠ study_a_2019.
Proof.
  split; [vm_compute; reflexivity|]. split.
  - exists [study_a_2021], [], "2019". repeat split; try done.
    repeat constructor. exists "2021". by vm_compute.
  - split; [vm_compute; reflexivity|].
    intros Heq. assert (H : year_of study_a_2021 = year_of study_a_2019)
      by by rewrite Heq.
    vm_compute in H. discriminate.
Qed.

(** In a group of two or more, a member without a year makes the fallback
    raise [TypeError]. *)
Lemma earliest_year_missing_year entries :
  (2 ≤ length entries)%nat → Exists (λ e, year_of e = None) entries →
  earliest_year entries = Raised TypeError.
Proof.
  intros Hlen Hex. unfold earliest_year. fold year_of.
  by rewrite sorted_missing_key.
Qed.

(** C1. Two records without a [pmid] field are grouped under the key [None]
    and resolved like duplicates: when the title service finds nothing the
    record with the smaller year is the only survivor, when it raises so does
    [remove_duplicates], and whatever it does the two records never both
    reach the output. *)
Theorem remove_duplicates_merges_missing_pmid :
  pmid_of no_pmid_2021 = None ∧ pmid_of no_pmid_2019 = None
  ∧ group_by_pmid [no_pmid_2021; no_pmid_2019]
    = [(None, [no_pmid_2021; no_pmid_2019])]
  ∧ remove_duplicates efetch_no_title [no_pmid_2021; no_pmid_2019]
    = Ok [no_pmid_2019]
  ∧ remove_duplicates efetch_raises [no_pmid_2021; no_pmid_2019]
    = Raised OtherException
  ∧ ∀ efetch out,
      remove_duplicates efetch [no_pmid_2021; no_pmid_2019] = Ok out →
      ¬ (no_pmid_2021 ∈ out ∧ no_pmid_2019 ∈ out).
Proof.
  split; [vm_compute; reflexivity|]. split; [vm_compute; reflexivity|].
  split; [vm_compute; reflexivity|]. split; [vm_compute; reflexivity|].
  split; [vm_compute; reflexivity|].
  intros efetch out Hout [H1 H2].
  assert (Hne : no_pmid_2021 ≠ no_pmid_2019).
  { intros Heq. assert (H : year_of no_pmid_2021 = year_of no_pmid_2019)
      by by rewrite Heq.
    vm_compute in H. discriminate. }
  assert (Hg : group_by_pmid [no_pmid_2021; no_pmid_2019]
               = [(None, [no_pmid_2021; no_pmid_2019])])
    by (vm_compute; reflexivity).
  unfold remove_duplicates in Hout. rewrite Hg in Hout.
  apply resolve_groups_Forall2 in Hout.
  inversion Hout as [|g o gs os Hin Hrest]; subst.
  inversion Hrest; subst.
  apply list_elem_of_singleton in H1, H2. apply Hne. congruence.
Qed.

(** C6. A record set whose non-empty [pmid] values are pairwise distinct,
    and whose resolved output is nevertheless shorter: the two records
    without a [pmid] field share the group of the key [None]. *)
Theorem remove_duplicates_size_missing_pmid :
  NoDup (nonempty_pmids [no_pmid_2021; study_a_2021; no_pmid_2019])
  ∧ remove_duplicates efetch_no_title [no_pmid_2021; study_a_2021; no_pmid_2019]
    = Ok [no_pmid_2019; study_a_2021]
  ∧ ∀ efetch out,
      remove_duplicates efetch [no_pmid_2021; study_a_2021; no_pmid_2019] = Ok out →
      (length out < 3)%nat.
Proof.
  split; [vm_compute; apply NoDup_singleton|].
  split; [vm_compute; reflexivity|].
  intros efetch out Hout.
  assert (Hle := remove_duplicates_length_le efetch _ out Hout).
  assert (Hne : length out ≠ 3%nat).
  { intros Hl. apply (remove_duplicates_length_eq efetch _ out Hout) in Hl.
    vm_compute in Hl. apply NoDup_cons in Hl as [Hl _]. apply Hl.
    right. by left. }
  simpl in Hle. lia.
Qed.

(** ** The duplicate check of the audit *)

(** Such an entry is appended to the survivors and leaves the sets of seen
    and of removed values as they are. *)
Lemma audit_step_no_value key seen new_entries removed_keys e :
  no_value key e →
  Audit.step key (seen, new_entries, removed_keys) e
  = (seen, new_entries ++ [e], removed_keys).
Proof.
  unfold no_value, Audit.step. destruct (e !! key) as [val|]; simpl; [|done].
  by intros ->.
Qed.

(** An entry with a value: a later occurrence of a seen value is dropped
    and its value recorded, a first occurrence survives. *)
Lemma audit_step_value key seen new_entries removed_keys e val :
  e !! key = Some val → val ≠ "" →
  Audit.step key (seen, new_entries, removed_keys) e
  = if decide (val ∈ seen)
    then (seen, new_entries, removed_keys ∪ {[val]})
    else (seen ∪ {[val]}, new_entries ++ [e], removed_keys).
Proof.
  intros Hkey Hne. unfold Audit.step. rewrite Hkey. unfold str_truthy.
  by destruct (String.eqb_spec val "").
Qed.

Lemma no_value_cases key e :
  no_value key e ∨ ∃ val, e !! key = Some val ∧ val ≠ "" ∧ ¬ no_value key e.
Proof.
  unfold no_value, opt_truthy, str_truthy.
  destruct (e !! key) as [val|]; [|by left].
  destruct (String.eqb_spec val ""); [by left|].
  right. exists val. by repeat split.
Qed.

Lemma audit_foldl_inv key entries :
  ∀ seen new_entries removed_keys,
    let st := foldl (Audit.step key) (seen, new_entries, removed_keys) entries in
    filter (no_value key) st.1.2
    = filter (no_value key) new_entries ++ filter (no_value key) entries
    ∧ (∀ v, v ∈ st.2 →
         v ∈ removed_keys ∨ ∃ e, e ∈ entries ∧ e !! key = Some v ∧ v ≠ "").
Proof.
  induction entries as [|e entries IH]; intros seen new_entries removed_keys;
    cbv zeta in *.
  - simpl. rewrite app_nil_r. split; [done|]. by left.
  - cbn [foldl]. rewrite filter_cons.
    destruct (no_value_cases key e) as [Hno|(val & Hkey & Hne & Hval)].
    + rewrite audit_step_no_value, decide_True by done.
      destruct (IH seen (new_entries ++ [e]) removed_keys) as [Hf Hr].
      split.
      * rewrite Hf, filter_app, filter_cons_True, filter_nil by done.
        by rewrite <- app_assoc.
      * intros v Hv. destruct (Hr v Hv) as [?|(e' & ? & ?)]; [by left|].
        right. exists e'. split; [by right|done].
    + rewrite (audit_step_value _ _ _ _ _ val), (decide_False (P := no_value key e))
        by done.
      destruct (decide (val ∈ seen)).
      * destruct (IH seen new_entries (removed_keys ∪ {[val]})) as [Hf Hr].
        split; [done|].
        intros v Hv. destruct (Hr v Hv) as [Hin|(e' & ? & ?)].
        -- apply elem_of_union in Hin as [?|Hin]; [by left|].
           apply elem_of_singleton in Hin as ->.
           right. exists e. split; [by left|done].
        -- right. exists e'. split; [by right|done].
      * destruct (IH (seen ∪ {[val]}) (new_entries ++ [e]) removed_keys)
          as [Hf Hr].
        split.
        -- rewrite Hf, filter_app, filter_cons_False, filter_nil by done.
           by rewrite app_nil_r.
        -- intros v Hv. destruct (Hr v Hv) as [?|(e' & ? & ?)]; [by left|].
           right. exists e'. split; [by right|done].
Qed.

(** One pass keeps the entries without a value and records only values that
    some entry carries. *)
Lemma audit_pass_inv key entries :
  filter (no_value key) (Audit.remove_duplicates entries key).1
  = filter (no_value key) entries
  ∧ (∀ v, v ∈ (Audit.remove_duplicates entries key).2 →
       ∃ e, e ∈ entries ∧ e !! key = Some v ∧ v ≠ "").
Proof.
  unfold Audit.remove_duplicates.
  destruct (audit_foldl_inv key entries ∅ [] ∅) as [Hf Hr].
  destruct (foldl (Audit.step key) (∅, [], ∅) entries) as [[seen new] removed].
  simpl in *. split; [done|].
  intros v Hv. destruct (Hr v Hv) as [Hin|?]; [|done].
  by apply not_elem_of_empty in Hin.
Qed.

Lemma audit_pass_keeps key entries e :
  e ∈ entries → no_value key e → e ∈ (Audit.remove_duplicates entries key).1.
Proof.
  intros Hin Hno. destruct (audit_pass_inv key entries) as [Hf _].
  assert (He : e ∈ filter (no_value key) (Audit.remove_duplicates entries key).1).
  { rewrite Hf. by apply list_elem_of_filter. }
  by apply list_elem_of_filter in He as [_ ?].
Qed.

(** C10. In a pass of the duplicate check over any entry list and any key,
    the entries without a value (missing or empty) under that key all
    survive, in their order and number; processing one changes neither the
    seen nor the removed values; and the removed values are values of
    entries, never the empty one. *)
Theorem audit_keeps_entries_without_value (key : string) (entries : list entry) :
  let new_entries := (Audit.remove_duplicates entries key).1 in
  let removed_keys := (Audit.remove_duplicates entries key).2 in
  filter (no_value key) new_entries = filter (no_value key) entries
  ∧ (∀ e, e ∈ entries → no_value key e → e ∈ new_entries)
  ∧ (∀ seen survivors removed e, no_value key e →
       Audit.step key (seen, survivors, removed) e
       = (seen, survivors ++ [e], removed))
  ∧ ("" ∉ removed_keys)
  ∧ (∀ v, v ∈ removed_keys → ∃ e, e ∈ entries ∧ e !! key = Some v ∧ v ≠ "").
Proof.
  intros new_entries removed_keys. subst new_entries removed_keys.
  destruct (audit_pass_inv key entries) as [Hf Hrem].
  split; [done|]. split; [intros e; apply audit_pass_keeps|].
  split; [intros; by apply audit_step_no_value|]. split; [|done].
  intros Hin. by destruct (Hrem "" Hin) as (e & _ & _ & ?).
Qed.

(** The three passes run one after the other, each on the survivors of the
    pass before. *)
Lemma audit_three_passes entries :
  Audit.three_passes entries
  = let r1 := Audit.remove_duplicates entries "ID" in
    let r2 := Audit.remove_duplicates r1.1 "pmid" in
    let r3 := Audit.remove_duplicates r2.1 "doi" in
    (r3.1, r1.2, r2.2, r3.2).
Proof.
  unfold Audit.three_passes. cbv zeta.
  destruct (Audit.remove_duplicates entries "ID") as [entries1 dup_ids].
  cbn [fst snd].
  destruct (Audit.remove_duplicates entries1 "pmid") as [entries2 dup_pmids].
  cbn [fst snd].
  destruct (Audit.remove_duplicates entries2 "doi") as [entries3 dup_dois].
  cbn [fst snd]. by rewrite !(left_id_L ∅ (∪)).
Qed.

(** An entry with neither key, [pmid] nor [doi] survives the whole check. *)
Lemma audit_three_passes_keep entries e :
  e ∈ entries → no_value "ID" e → no_value "pmid" e → no_value "doi" e →
  e ∈ (Audit.three_passes entries).1.1.1.
Proof.
  intros Hin Hid Hpmid Hdoi. rewrite audit_three_passes. cbn [fst snd].
  apply audit_pass_keeps; [|done]. apply audit_pass_keeps; [|done].
  by apply audit_pass_keeps.
Qed.

(** ** Patching an entry *)

Lemma rfind_from_absent c s : ∀ i found,
  c ∉ s → rfind_from c s i found = found.
Proof.
  induction s as [|x s IH]; intros i found Hnin; [done|].
  apply not_elem_of_cons in Hnin as [Hne Hnin]. simpl.
  destruct (Ascii.eqb_spec x c); [congruence|]. by apply IH.
Qed.

Lemma rfind_from_last c body tail : ∀ i found,
  c ∉ tail →
  rfind_from c (body ++ c :: tail) i found = Some (i + length body)%nat.
Proof.
  induction body as [|x body IH]; intros i found Hnin; simpl.
  - rewrite Ascii.eqb_refl, rfind_from_absent by done. f_equal. lia.
  - rewrite IH by done. f_equal. lia.
Qed.

(** [rfind] returns the position of the last occurrence. *)
Lemma rfind_last c body tail :
  c ∉ tail → rfind c (body ++ c :: tail) = Some (length body).
Proof. intros Hnin. unfold rfind. by rewrite rfind_from_last. Qed.

Lemma rfind_absent c s : c ∉ s → rfind c s = None.
Proof. apply rfind_from_absent. Qed.

(** Case analysis on the 256 characters. *)
Ltac char_cases c := destruct c as [[] [] [] [] [] [] [] []].

(** The character classes do not depend on the case of a letter. *)
Lemma to_lower_is_space c : is_space (to_lower c) = is_space c.
Proof. by char_cases c. Qed.

Lemma to_lower_is_word c : is_word (to_lower c) = is_word c.
Proof. by char_cases c. Qed.

Lemma to_lower_idemp c : to_lower (to_lower c) = to_lower c.
Proof. by char_cases c. Qed.

Lemma to_lower_eqb_brace c x :
  x = "}"%char ∨ x = "{"%char ∨ x = "="%char ∨ x = newline →
  Ascii.eqb (to_lower c) x = Ascii.eqb c x.
Proof.
  intros [->|[->|[->| ->]]]; by char_cases c.
Qed.

Lemma to_lower_matches_ci c letter :
  matches_ci (to_lower c) letter = matches_ci c letter.
Proof. unfold matches_ci. by rewrite to_lower_idemp. Qed.

Lemma to_lower_skip_spaces s :
  skip_spaces (to_lower <$> s) = to_lower <$> skip_spaces s.
Proof.
  induction s as [|c s IH]; [done|].
  rewrite fmap_cons. cbn [skip_spaces]. rewrite to_lower_is_space.
  destruct (is_space c); [done|]. by rewrite fmap_cons.
Qed.

Lemma to_lower_closes_on_line s :
  closes_on_line (to_lower <$> s) = closes_on_line s.
Proof.
  induction s as [|c s IH]; [done|].
  rewrite fmap_cons. cbn [closes_on_line].
  rewrite !to_lower_eqb_brace, IH by tauto. done.
Qed.

Lemma to_lower_match_pmid_here s :
  match_pmid_here (to_lower <$> s) = match_pmid_here s.
Proof.
  destruct s as [|c1 [|c2 [|c3 [|c4 r]]]]; try done.
  rewrite !fmap_cons. cbn [match_pmid_here].
  rewrite !to_lower_matches_ci, to_lower_skip_spaces.
  destruct (skip_spaces r) as [|c5 r1]; [done|].
  rewrite fmap_cons, to_lower_eqb_brace, to_lower_skip_spaces by tauto.
  destruct (skip_spaces r1) as [|c6 r2]; [done|].
  by rewrite fmap_cons, to_lower_eqb_brace, to_lower_closes_on_line by tauto.
Qed.

Lemma to_lower_search_pmid s : ∀ b,
  search_pmid b (to_lower <$> s) = search_pmid b s.
Proof.
  induction s as [|c s IH]; intros b; [done|].
  rewrite fmap_cons. cbn [search_pmid].
  rewrite <- fmap_cons, to_lower_match_pmid_here, to_lower_is_word, IH. done.
Qed.

(** The check for an existing [pmid] field does not see the case of any
    letter. *)
Lemma pmid_exists_case_insensitive s s' :
  to_lower <$> s = to_lower <$> s' → pmid_exists s = pmid_exists s'.
Proof.
  intros Heq. unfold pmid_exists.
  by rewrite <- (to_lower_search_pmid s), <- (to_lower_search_pmid s'), Heq.
Qed.

(** The pattern finds a [pmid] field written in any case, with any
    whitespace around the equals sign and a value without a line break,
    when the name does not continue a word. *)
Lemma skip_spaces_run sp c r :
  Forall (λ x, is_space x = true) sp → is_space c = false →
  skip_spaces (sp ++ c :: r) = c :: r.
Proof.
  intros Hsp Hc. induction Hsp as [|x sp Hx Hsp IH]; simpl.
  - by rewrite Hc.
  - by rewrite Hx.
Qed.

Lemma closes_on_line_value v post :
  newline ∉ v → closes_on_line (v ++ "}"%char :: post) = true.
Proof.
  induction v as [|c v IH]; intros Hnl; [done|].
  apply not_elem_of_cons in Hnl as [Hne Hnl]. simpl.
  destruct (Ascii.eqb c "}"); [done|].
  destruct (Ascii.eqb_spec c newline); [congruence|]. by apply IH.
Qed.

Lemma search_pmid_prefix pre rest : ∀ b,
  match_pmid_here rest = true →
  match last pre with Some c => is_word c = false | None => b = false end →
  search_pmid b (pre ++ rest) = true.
Proof.
  induction pre as [|c pre IH]; intros b Hm Hb.
  - simpl in *. subst b. destruct rest as [|c rest]; [done|].
    cbn [search_pmid]. by rewrite Hm.
  - rewrite <- app_comm_cons. cbn [search_pmid].
    rewrite IH; [apply orb_true_r|done|].
    destruct pre as [|c' pre]; [exact Hb|]. rewrite last_cons_cons in Hb.
    destruct (last (c' :: pre)) as [x|] eqn:Hlast; [exact Hb|].
    by apply last_None in Hlast.
Qed.

Lemma pmid_exists_field pre name sp1 sp2 v post :
  match last pre with Some c => is_word c = false | None => True end →
  to_lower <$> name = ["p"; "m"; "i"; "d"]%char →
  Forall (λ x, is_space x = true) sp1 → Forall (λ x, is_space x = true) sp2 →
  newline ∉ v →
  pmid_exists
    (pre ++ name ++ sp1 ++ "="%char :: sp2 ++ "{"%char :: v ++ "}"%char :: post)
  = true.
Proof.
  intros Hpre Hname Hsp1 Hsp2 Hv. unfold pmid_exists.
  apply search_pmid_prefix; [|by destruct (last pre)].
  destruct name as [|c1 [|c2 [|c3 [|c4 [|c5 name]]]]]; try done.
  injection Hname as H1 H2 H3 H4.
  cbn [app match_pmid_here]. unfold matches_ci.
  rewrite H1, H2, H3, H4. cbn [Ascii.eqb Bool.eqb andb].
  rewrite skip_spaces_run by done. cbn [Ascii.eqb Bool.eqb andb].
  rewrite skip_spaces_run by done. cbn [Ascii.eqb Bool.eqb andb].
  by apply closes_on_line_value.
Qed.

Lemma skip_spaces_all s : Forall (λ c, is_space c = true) s → skip_spaces s = [].
Proof. induction 1 as [|c s Hc _ IH]; simpl; [done|]. by rewrite Hc. Qed.

(** [skip_spaces] removes a run of whitespace and stops at a character that
    is none. *)
Lemma skip_spaces_split s :
  ∃ sp, s = sp ++ skip_spaces s
        ∧ Forall (λ c, is_space c = true) sp
        ∧ match skip_spaces s with c :: _ => is_space c = false | [] => True end.
Proof.
  induction s as [|c s (sp & Hs & Hsp & Hhead)]; simpl.
  - by exists [].
  - destruct (is_space c) eqn:Hc.
    + exists (c :: sp). split; [simpl; by f_equal|]. split; [by constructor|done].
    + by exists [].
Qed.

Lemma skip_spaces_fixed s :
  match s with c :: _ => is_space c = false | [] => True end →
  skip_spaces s = s.
Proof. destruct s as [|c s]; simpl; [done|]. by intros ->. Qed.

Lemma rstrip_split s :
  ∃ sp, s = rstrip s ++ sp
        ∧ Forall (λ c, is_space c = true) sp
        ∧ match last (rstrip s) with
          | Some c => is_space c = false
          | None => True
          end.
Proof.
  unfold rstrip. destruct (skip_spaces_split (rev s)) as (sp & Hs & Hsp & Hhead).
  exists (rev sp). split; [|split].
  - rewrite <- rev_app_distr, <- Hs. by rewrite rev_involutive.
  - by apply Forall_rev.
  - destruct (skip_spaces (rev s)) as [|c r]; [done|].
    simpl. by rewrite last_snoc.
Qed.

Lemma rstrip_fixed s :
  match last s with Some c => is_space c = false | None => True end →
  rstrip s = s.
Proof.
  intros Hlast. unfold rstrip. rewrite skip_spaces_fixed.
  - apply rev_involutive.
  - destruct s as [|c s] using rev_ind; [done|].
    rewrite rev_unit. by rewrite last_snoc in Hlast.
Qed.

Lemma skip_spaces_inv s c r :
  skip_spaces s = c :: r →
  ∃ sp, s = sp ++ c :: r ∧ Forall (λ x, is_space x = true) sp.
Proof.
  intros Hs. destruct (skip_spaces_split s) as (sp & Heq & Hsp & _).
  exists sp. by rewrite <- Hs.
Qed.

Lemma closes_on_line_inv s :
  closes_on_line s = true →
  ∃ v post, s = v ++ "}"%char :: post ∧ newline ∉ v.
Proof.
  induction s as [|c s IH]; simpl; [done|].
  destruct (Ascii.eqb_spec c "}") as [->|_].
  - intros _. exists [], s. split; [done|]. apply not_elem_of_nil.
  - destruct (Ascii.eqb_spec c newline) as [|Hnl]; [done|].
    intros (v & post & -> & Hv)%IH. exists (c :: v), post. split; [done|].
    apply not_elem_of_cons. by split.
Qed.

Lemma match_pmid_here_inv rest :
  match_pmid_here rest = true →
  ∃ name sp1 sp2 v post,
    rest = name ++ sp1 ++ "="%char :: sp2 ++ "{"%char :: v ++ "}"%char :: post
    ∧ to_lower <$> name = ["p"; "m"; "i"; "d"]%char
    ∧ Forall (λ x, is_space x = true) sp1
    ∧ Forall (λ x, is_space x = true) sp2
    ∧ newline ∉ v.
Proof.
  destruct rest as [|c1 [|c2 [|c3 [|c4 r]]]]; try done.
  cbn [match_pmid_here]. unfold matches_ci.
  intros ((((H1 & H2)%andb_true_iff & H3)%andb_true_iff
            & H4)%andb_true_iff & Hrest)%andb_true_iff.
  apply Ascii.eqb_eq in H1, H2, H3, H4.
  destruct (skip_spaces r) as [|c5 r1] eqn:Hr; [done|].
  apply andb_true_iff in Hrest as [H5 Hrest]. apply Ascii.eqb_eq in H5 as ->.
  destruct (skip_spaces r1) as [|c6 r2] eqn:Hr1; [done|].
  apply andb_true_iff in Hrest as [H6 Hrest]. apply Ascii.eqb_eq in H6 as ->.
  apply skip_spaces_inv in Hr as (sp1 & -> & Hsp1).
  apply skip_spaces_inv in Hr1 as (sp2 & -> & Hsp2).
  apply closes_on_line_inv in Hrest as (v & post & -> & Hv).
  exists [c1; c2; c3; c4], sp1, sp2, v, post. repeat split; try done.
  rewrite !fmap_cons. by rewrite H1, H2, H3, H4.
Qed.

Lemma search_pmid_inv s : ∀ b,
  search_pmid b s = true →
  ∃ pre rest,
    s = pre ++ rest ∧ match_pmid_here rest = true
    ∧ match last pre with Some c => is_word c = false | None => b = false end.
Proof.
  induction s as [|c s IH]; intros b; [done|].
  cbn [search_pmid].
  intros [[Hb Hm]%andb_true_iff|Hs]%orb_true_iff.
  - exists [], (c :: s). split; [done|]. split; [done|].
    by apply negb_true_iff in Hb.
  - apply IH in Hs as (pre & rest & -> & Hm & Hb).
    exists (c :: pre), rest. split; [done|]. split; [done|].
    destruct pre as [|c' pre]; [exact Hb|]. rewrite last_cons_cons.
    destruct (last (c' :: pre)) as [x|] eqn:Hlast; [exact Hb|].
    by apply last_None in Hlast.
Qed.

Lemma list_ascii_of_string_app a b :
  String.list_ascii_of_string (a +:+ b)
  = String.list_ascii_of_string a ++ String.list_ascii_of_string b.
Proof. induction a as [|c a IH]; simpl; [done|]. by rewrite IH. Qed.

Lemma pmid_to_doi_via_crossref_pmid crossref pmid :
  (pmid_to_doi_via_crossref crossref pmid).2 = Some pmid.
Proof.
  unfold pmid_to_doi_via_crossref.
  destruct crossref as [|st [[|[d|] items]|]]; try done.
  by destruct (_ && _).
Qed.

Lemma pmid_to_doi_pmid entrez pmid doi pmid_out :
  pmid_to_doi entrez pmid = Ok (doi, pmid_out) →
  doi = None ∨ pmid_out = Some pmid.
Proof.
  unfold pmid_to_doi. destruct entrez as [e|status_code body]; [done|].
  destruct (status_code =? 200); [|intros [= <- <-]; by left].
  destruct body as [|ids]; [intros [= <- <-]; by left|].
  destruct (find_doi ids) as [d|]; cbn; [|done]. intros [= <- <-]. by right.
Qed.

(** Whatever the two services answer, the identifier that comes back is the
    one that was asked for. *)
Lemma resolve_doi_pmid_out entrez crossref pmid doi pmid_out :
  resolve_doi entrez crossref pmid = Ok (doi, pmid_out) → pmid_out = Some pmid.
Proof.
  unfold resolve_doi.
  destruct (pmid_to_doi entrez pmid) as [[d p]|] eqn:Hr; cbn; [|done].
  apply pmid_to_doi_pmid in Hr as [->| ->].
  - intros [= Heq]. rewrite <- (pmid_to_doi_via_crossref_pmid crossref pmid).
    by rewrite Heq.
  - destruct d; intros [= Heq]; [congruence|].
    rewrite <- (pmid_to_doi_via_crossref_pmid crossref pmid). by rewrite Heq.
Qed.

(** The patch of an entry with a closing brace, for a non-empty list of
    lines. *)
Lemma insert_fields_last_brace body tail doi pmid_out :
  "}"%char ∉ tail →
  lines_to_add doi pmid_out (pmid_exists (body ++ "}"%char :: tail)) ≠ [] →
  insert_fields (body ++ "}"%char :: tail) doi pmid_out
  = rstrip body
    ++ (if endswith (rstrip body) "," then [] else [","%char])
    ++ [newline]
    ++ concat (lines_to_add doi pmid_out (pmid_exists (body ++ "}"%char :: tail)))
    ++ "}"%char :: tail.
Proof.
  intros Hnin Hlines. unfold insert_fields.
  destruct (lines_to_add _ _ _) as [|line lines]; [done|].
  rewrite rfind_last by done.
  rewrite take_app_length, drop_app_length.
  destruct (endswith (rstrip body) ","); [done|].
  by rewrite <- !app_assoc.
Qed.

(** [endswith] looks at the last character. *)
Lemma endswith_last s c : endswith s c = true ↔ last s = Some c.
Proof.
  unfold endswith. destruct (last s) as [x|]; [|done].
  destruct (Ascii.eqb_spec x c) as [->|Hne]; [done|].
  split; [done|]. intros [= ?]. done.
Qed.

(** The characters of an added line. *)
Lemma field_line_text name value :
  field_line name value
  = String.list_ascii_of_string "    " ++ String.list_ascii_of_string name
    ++ String.list_ascii_of_string " = {" ++ String.list_ascii_of_string value
    ++ String.list_ascii_of_string "}," ++ [newline].
Proof.
  unfold field_line. rewrite !list_ascii_of_string_app.
  by rewrite <- !app_assoc.
Qed.

Lemma brace_depth_app s1 s2 : ∀ d,
  brace_depth d (s1 ++ s2) = brace_depth d s1 ≫= (λ d', brace_depth d' s2).
Proof.
  induction s1 as [|c s1 IH]; intros d; [done|]. cbn [app brace_depth].
  destruct (Ascii.eqb c "{"); [apply IH|].
  destruct (Ascii.eqb c "}"); [|apply IH].
  destruct d as [|d]; [done|apply IH].
Qed.

Lemma brace_depth_raise s (k : nat) : ∀ d d',
  brace_depth d s = Some d' → brace_depth (d + k) s = Some (d' + k)%nat.
Proof.
  induction s as [|c s IH]; intros d d'; cbn [brace_depth].
  - by intros [= ->].
  - destruct (Ascii.eqb c "{"); [apply (IH (S d))|].
    destruct (Ascii.eqb c "}"); [|apply IH].
    destruct d as [|d]; [done|apply IH].
Qed.

(** A text with balanced braces leaves every depth as it finds it. *)
Lemma balanced_neutral s : balanced s → ∀ d, brace_depth d s = Some d.
Proof. intros Hs d. apply (brace_depth_raise s d 0 0 Hs). Qed.

Lemma spaces_neutral sp :
  Forall (λ c, is_space c = true) sp → ∀ d, brace_depth d sp = Some d.
Proof.
  induction 1 as [|c sp Hc _ IH]; intros d; [done|]. cbn [brace_depth].
  assert (Ascii.eqb c "{" = false) as ->.
  { destruct (Ascii.eqb_spec c "{") as [->|]; [done|done]. }
  assert (Ascii.eqb c "}" = false) as ->.
  { destruct (Ascii.eqb_spec c "}") as [->|]; [done|done]. }
  apply IH.
Qed.

Lemma neutral_app s1 s2 :
  (∀ d, brace_depth d s1 = Some d) → (∀ d, brace_depth d s2 = Some d) →
  ∀ d, brace_depth d (s1 ++ s2) = Some d.
Proof. intros H1 H2 d. rewrite brace_depth_app, H1. apply H2. Qed.

(** Neutral text between two parts can be exchanged. *)
Lemma brace_depth_middle a mid mid' b d :
  (∀ d, brace_depth d mid = Some d) → (∀ d, brace_depth d mid' = Some d) →
  brace_depth d (a ++ mid ++ b) = brace_depth d (a ++ mid' ++ b).
Proof.
  intros Hmid Hmid'. rewrite !brace_depth_app.
  destruct (brace_depth d a) as [k|]; [|done]. cbn.
  by rewrite !brace_depth_app, Hmid, Hmid'.
Qed.

Lemma str_truthy_decide s :
  str_truthy s = if decide (s = "") then false else true.
Proof.
  unfold str_truthy. destruct (String.eqb_spec s "") as [->|Hne]; [done|].
  by rewrite decide_False.
Qed.

(** No added line is empty. *)
Lemma lines_to_add_nil doi pmid_out present :
  concat (lines_to_add doi pmid_out present) = [] →
  lines_to_add doi pmid_out present = [].
Proof.
  unfold lines_to_add.
  destruct (opt_truthy doi); destruct (opt_truthy pmid_out && negb present);
    cbn [app concat]; rewrite ?field_line_text; done.
Qed.
(** C8. For an entry that contains a closing brace, once the DOI lookup has
    returned. The entry is a body that does not end with whitespace, a run
    of whitespace, the last closing brace of the text, and a tail. The patch
    adds the line ["    DOI = {<doi>},"] when a non-empty DOI was resolved,
    and the line ["    pmid = {<pmid>},"] when the identifier is not empty
    and the entry has no pmid field, a check on the shape of the text that
    does not see the case of letters. With nothing to add the entry is
    returned as it is; otherwise the result is the body, a comma unless the
    body ends with one, a newline, the added lines, and then the last
    closing brace with the tail, unchanged. When the braces of the entry, of
    the DOI and of the identifier are balanced, so are those of the
    result. *)
Theorem append_doi_pmid_to_entry_inserts
    (entrez : efetch_reply) (crossref : crossref_reply)
    (bibtex_entry : text) (pmid : string) (doi pmid_out : option string) :
  "}"%char ∈ bibtex_entry →
  resolve_doi entrez crossref pmid = Ok (doi, pmid_out) →
  ∃ (body sp tail : text) (pmid_present : bool),
    bibtex_entry = body ++ sp ++ "}"%char :: tail
    ∧ ("}"%char ∉ tail)
    ∧ Forall (λ c, is_space c = true) sp
    ∧ match last body with Some c => is_space c = false | None => True end
    ∧ (pmid_present = true ↔ pmid_field_shape bibtex_entry)
    ∧ (∀ other, to_lower <$> other = to_lower <$> bibtex_entry →
         pmid_field_shape other ↔ pmid_field_shape bibtex_entry)
    ∧ let doi_field :=
        match doi with
        | Some d =>
          if decide (d = "") then []
          else String.list_ascii_of_string "    DOI = {"
               ++ String.list_ascii_of_string d
               ++ String.list_ascii_of_string "}," ++ [newline]
        | None => []
        end in
      let pmid_field :=
        if decide (pmid = "") then []
        else if pmid_present then []
        else String.list_ascii_of_string "    pmid = {"
             ++ String.list_ascii_of_string pmid
             ++ String.list_ascii_of_string "}," ++ [newline] in
      let patched :=
        match doi_field ++ pmid_field with
        | [] => bibtex_entry
        | _ :: _ =>
          body ++ (if decide (last body = Some ","%char) then [] else [","%char])
          ++ [newline] ++ doi_field ++ pmid_field ++ "}"%char :: tail
        end in
      append_doi_pmid_to_entry entrez crossref bibtex_entry pmid = Ok patched
      ∧ (balanced bibtex_entry →
         (∀ d, doi = Some d → balanced (String.list_ascii_of_string d)) →
         balanced (String.list_ascii_of_string pmid) →
         balanced patched).
Proof.
  intros Hbrace Hres.
  assert (pmid_out = Some pmid) as -> by by eapply resolve_doi_pmid_out.
  apply list_elem_of_split_r in Hbrace as (body0 & tail & Heq & Hnin).
  destruct (rstrip_split body0) as (sp & Hsp & Hspaces & Hlast).
  assert (Hshape : ∀ t, pmid_exists t = true ↔ pmid_field_shape t).
  { intros t. split.
    - intros (pre & rest & -> & Hm & Hb)%search_pmid_inv.
      apply match_pmid_here_inv in Hm as (name & sp1 & sp2 & v & post & -> & ?).
      exists pre, name, sp1, sp2, v, post. split; [done|].
      split; [by destruct (last pre)|done].
    - intros (pre & name & sp1 & sp2 & v & post & -> & ? & ? & ? & ? & ?).
      by apply pmid_exists_field. }
  assert (Hsplit : bibtex_entry = rstrip body0 ++ sp ++ "}"%char :: tail).
  { rewrite app_assoc, <- Hsp. exact Heq. }
  exists (rstrip body0), sp, tail, (pmid_exists bibtex_entry).
  split; [done|]. split; [done|]. split; [done|]. split; [done|].
  split; [apply Hshape|]. split.
  { intros other Hother. rewrite <- !Hshape.
    by rewrite (pmid_exists_case_insensitive other bibtex_entry). }
  cbv zeta.
  set (doi_field := match doi with Some d => _ | None => _ end).
  set (pmid_field := if decide (pmid = "") then _ else _).
  assert (Hlines : concat (lines_to_add doi (Some pmid) (pmid_exists bibtex_entry))
                   = doi_field ++ pmid_field).
  { unfold lines_to_add, opt_truthy. subst doi_field pmid_field.
    rewrite (str_truthy_decide pmid).
    assert (Hdoi : concat (if match doi with
                              | Some s => str_truthy s
                              | None => false
                              end
                           then [field_line "DOI" (default "" doi)] else [])
                   = match doi with
                     | Some d =>
                       if decide (d = "") then []
                       else String.list_ascii_of_string "    DOI = {"
                            ++ String.list_ascii_of_string d
                            ++ String.list_ascii_of_string "}," ++ [newline]
                     | None => []
                     end).
    { destruct doi as [d|]; [|done]. rewrite (str_truthy_decide d).
      destruct (decide (d = "")); [done|].
      cbn [concat default]. by rewrite app_nil_r, field_line_text. }
    rewrite concat_app, Hdoi. f_equal.
    destruct (decide (pmid = "")); [done|].
    destruct (pmid_exists bibtex_entry); [done|].
    cbn [andb negb concat default]. by rewrite app_nil_r, field_line_text. }
  split.
  - unfold append_doi_pmid_to_entry. rewrite Hres.
    cbn [mbind outcome_bind mret outcome_ret fst snd]. f_equal.
    destruct (doi_field ++ pmid_field) as [|c fields] eqn:Hfields.
    + apply lines_to_add_nil in Hlines. unfold insert_fields. by rewrite Hlines.
    + rewrite (app_assoc doi_field pmid_field), Hfields, <- Hlines.
      rewrite Heq at 1 2.
      rewrite insert_fields_last_brace; [|done|].
      * rewrite <- Heq. do 2 f_equal.
        destruct (endswith (rstrip body0) ",") eqn:Hends.
        -- apply endswith_last in Hends. by rewrite decide_True.
        -- rewrite decide_False; [done|].
           intros Hl%endswith_last. congruence.
      * rewrite <- Heq. intros Hnil. by rewrite Hnil in Hlines.
  - intros Hbal Hdoi Hpmid.
    destruct (doi_field ++ pmid_field) as [|c fields] eqn:Hfields; [done|].
    clear Hfields Hlines. unfold balanced.
    assert (Hdf : ∀ d0, brace_depth d0 doi_field = Some d0).
    { subst doi_field. destruct doi as [d|]; [|done].
      destruct (decide (d = "")); [done|]. intros d0.
      cbn [String.list_ascii_of_string app brace_depth Ascii.eqb Bool.eqb].
      by rewrite brace_depth_app, (balanced_neutral _ (Hdoi d eq_refl)). }
    assert (Hpf : ∀ d0, brace_depth d0 pmid_field = Some d0).
    { subst pmid_field. destruct (decide (pmid = "")); [done|].
      destruct (pmid_exists bibtex_entry); [done|]. intros d0.
      cbn [String.list_ascii_of_string app brace_depth Ascii.eqb Bool.eqb].
      by rewrite brace_depth_app, (balanced_neutral _ Hpmid). }
    set (comma := if decide (last (rstrip body0) = Some ","%char)
                  then [] else [","%char]).
    assert (Hmid : ∀ d0, brace_depth d0 (comma ++ [newline] ++ doi_field
                                           ++ pmid_field) = Some d0).
    { repeat apply neutral_app; try done. subst comma. intros d0.
      by destruct (decide (last (rstrip body0) = Some ","%char)). }
    replace (rstrip body0 ++ comma ++ [newline] ++ doi_field ++ pmid_field
             ++ "}"%char :: tail)
      with (rstrip body0 ++ (comma ++ [newline] ++ doi_field ++ pmid_field)
            ++ "}"%char :: tail)
      by (by rewrite <- !app_assoc).
    rewrite (brace_depth_middle _ _ sp); [|done|by apply spaces_neutral].
    by rewrite <- Hsplit.
Qed.

(** The patched record. *)
Example append_doi_pmid_to_entry_sample :
  append_doi_pmid_to_entry entrez_with_doi CrossrefRaised sample_record "123"
  = Ok (String.list_ascii_of_string "@article{k2020,
  title = {T},
  year = {2020},
    DOI = {https://doi.org/10.1/x},
    pmid = {123},
}").
Proof. vm_compute. reflexivity. Qed.

Lemma append_doi_pmid_to_entry_inserts_witness :
  ∃ (body sp tail : text) (pmid_present : bool),
    sample_record = body ++ sp ++ "}"%char :: tail
    ∧ Forall (λ c, is_space c = true) sp
    ∧ (pmid_present = true ↔ pmid_field_shape sample_record)
    ∧ append_doi_pmid_to_entry entrez_with_doi CrossrefRaised sample_record "123"
      = Ok (body
            ++ (if decide (last body = Some ","%char) then [] else [","%char])
            ++ [newline]
            ++ String.list_ascii_of_string "    DOI = {https://doi.org/10.1/x},"
            ++ [newline]
            ++ (if pmid_present then []
                else String.list_ascii_of_string "    pmid = {123},"
                     ++ [newline])
            ++ "}"%char :: tail).
Proof.
  destruct (append_doi_pmid_to_entry_inserts entrez_with_doi CrossrefRaised
              sample_record "123" (Some "https://doi.org/10.1/x") (Some "123"))
    as (body & sp & tail & present & Heq & _ & Hsp & _ & Hshape & _ & Hrun & _).
  - apply list_elem_of_In. vm_compute. tauto.
  - reflexivity.
  - exists body, sp, tail, present. split; [exact Heq|]. split; [exact Hsp|].
    split; [exact Hshape|]. exact Hrun.
Defined.

(** The patch does not look into the values it inserts, nor for the brace
    that closes the record: an identifier with a closing brace leaves the
    braces of a sound record unbalanced, and with text after the record the
    last closing brace of the text is not the one of the record, so that the
    record itself receives nothing. *)
Lemma append_doi_pmid_to_entry_unbalanced :
  ("}"%char ∈ sample_record
   ∧ balanced sample_record
   ∧ ∃ patched,
       append_doi_pmid_to_entry entrez_with_doi CrossrefRaised
         sample_record "12}3" = Ok patched
       ∧ ¬ balanced patched)
  ∧ append_doi_pmid_to_entry entrez_with_doi CrossrefRaised
      (sample_record ++ newline :: String.list_ascii_of_string "% see {erratum}")
      "123"
    = Ok (sample_record
          ++ newline :: String.list_ascii_of_string "% see {erratum,"
          ++ newline
             :: String.list_ascii_of_string "    DOI = {https://doi.org/10.1/x},"
          ++ newline :: String.list_ascii_of_string "    pmid = {123},"
          ++ [newline; "}"%char]).
Proof.
  split; [|vm_compute; reflexivity].
  split; [apply list_elem_of_In; vm_compute; tauto|].
  split; [vm_compute; reflexivity|].
  eexists. split; [vm_compute; reflexivity|].
  unfold balanced. vm_compute. discriminate.
Qed.

(** ** The record loop *)

Lemma entrez_attempts_exhausted w pmid :
  primary_exhausted w pmid →
  entrez_attempts w pmid max_retries 0 initial_wait_time None []
  = (pubmed_bib w pmid 4, exhausted_log pmid).
Proof.
  intros Hex. unfold max_retries. cbn [entrez_attempts].
  rewrite !Hex by lia. reflexivity.
Qed.

(** Were [get_bibtex_via_crossref] bound to a function [f], an identifier
    whose primary retrieval is exhausted would get one call of [f]; on its
    failure the error is logged and the loop goes on. *)
Lemma fetch_one_fallback_bound f w st pmid :
  primary_exhausted w pmid →
  fetch_one (Some f) w st pmid
  = let st' := add_log (before_fallback st pmid) [Request "crossref" pmid] in
    if entry_truthy (f pmid)
    then patch_and_write w st' (default [] (f pmid)) pmid
    else Ok (add_error
               {| bib_file := bib_file st'; pmid_file := pmid_file st';
                  entrez_fail_count := entrez_fail_count st';
                  crossref_fail_count := S (crossref_fail_count st');
                  errors := errors st'; fetch_log := fetch_log st' |}
               (RetrievalFailed pmid)).
Proof.
  intros Hex. unfold fetch_one. rewrite entrez_attempts_exhausted by done.
  rewrite (Hex 4%nat) by lia. reflexivity.
Qed.

(** In [functions.py] the name is unbound: the call raises [NameError]. *)
Lemma fetch_one_fallback_unbound w st pmid :
  primary_exhausted w pmid →
  fetch_one functions_py_get_bibtex_via_crossref w st pmid
  = Raised (NameError "get_bibtex_via_crossref").
Proof.
  intros Hex. unfold fetch_one. rewrite entrez_attempts_exhausted by done.
  rewrite (Hex 4%nat) by lia. reflexivity.
Qed.

(** A run whose list holds such an identifier never completes: it stops
    there, or earlier on another exception. *)
Lemma fetch_all_aborts w pmid pmids :
  primary_exhausted w pmid → pmid ∈ pmids →
  ∀ st, ∃ e, fetch_all functions_py_get_bibtex_via_crossref w st pmids = Raised e.
Proof.
  intros Hex Hin. induction Hin as [pmid pmids|pmid p pmids Hin IH]; intros st.
  - cbn [fetch_all]. rewrite fetch_one_fallback_unbound by done. by eexists.
  - cbn [fetch_all].
    destruct (fetch_one _ w st p) as [st'|e]; [by apply IH|by exists e].
Qed.

(** C3. With [functions.py] as it is, a kept identifier whose primary
    retrieval fails five times ends the run: when the loop reaches it, the
    fallback call raises [NameError], which leaves the loop before anything
    is added to [errors] and before the identifiers after it are processed;
    so a run of [ref_gen] that keeps such an identifier always ends in an
    exception. *)
Theorem ref_gen_fallback_aborts (w : world) (pmid : string) :
  primary_exhausted w pmid →
  (∀ st rest,
     fetch_all functions_py_get_bibtex_via_crossref w st (pmid :: rest)
     = Raised (NameError "get_bibtex_via_crossref"))
  ∧ (∀ counted threshold,
       pmid ∈ (threshold_filter threshold counted).1 →
       ∃ e, ref_gen functions_py_get_bibtex_via_crossref w counted threshold
            = Raised e).
Proof.
  intros Hex. split.
  - intros st rest. cbn [fetch_all].
    by rewrite (fetch_one_fallback_unbound w st pmid Hex).
  - intros counted threshold Hin. unfold ref_gen.
    by apply (fetch_all_aborts w pmid).
Qed.

Lemma ref_gen_fallback_aborts_witness :
  ref_gen functions_py_get_bibtex_via_crossref world_tool_down
    [("1001", Some 15); ("1002", Some 3); ("1004", Some 40)] 10
  = Raised (NameError "get_bibtex_via_crossref").
Proof.
  unfold ref_gen.
  change (threshold_filter 10 _).1 with ["1001"; "1004"].
  apply (ref_gen_fallback_aborts world_tool_down "1001").
  intros attempt _. reflexivity.
Defined.

(* ===================================================================== *)
(** * Part IV: further properties of the code                             *)
(* ===================================================================== *)

(** ** The citation counter for any bound *)

Lemma count_links_nonneg record : 0 ≤ count_links record.
Proof.
  unfold count_links. destruct record as [|[[[|[[links|]] ?]|]] ?]; simpl; lia.
Qed.

(** The loop over [range(m)] from iteration [s] on: a returned count is not
    negative, and the events are requests separated by two-second sleeps. *)
Lemma get_citations_loop_shape elink pmid : ∀ (k s : nat) log,
  let r := get_citations_loop elink pmid (Z.of_nat (s + k)) (seq s k) log in
  (∀ c, r.1 = Some c → 0 ≤ c)
  ∧ (k = 0%nat ∧ r = (None, log)
     ∨ ∃ j : nat, (j < k)%nat
         ∧ r.2 = log ++ retry_log pmid j ++ [Request "elink" pmid]).
Proof.
  induction k as [|k IH]; intros s log; cbv zeta.
  - simpl. split; [done|]. by left.
  - cbn [seq get_citations_loop].
    assert (Hhere : ∀ o : option Z,
      (o, log ++ [Request "elink" pmid]).2
      = log ++ retry_log pmid 0 ++ [Request "elink" pmid]) by done.
    destruct (elink s) as [record|[]]; cbn [fst snd];
      try (split; [intros c [= <-]; try lia; apply count_links_nonneg
                  |right; exists 0%nat; split; [lia|done]]);
      try (split; [done|right; exists 0%nat; split; [lia|done]]).
    destruct (Z.of_nat s <? Z.of_nat (s + S k) - 1) eqn:Hlt.
    + apply Z.ltb_lt in Hlt.
      replace (s + S k)%nat with (S s + k)%nat by lia.
      destruct (IH (S s) ((log ++ [Request "elink" pmid]) ++ [Sleep 2000]))
        as [Hc [[-> _]|(j & Hj & Hlog)]]; [lia|].
      split; [done|]. right. exists (S j). split; [lia|].
      rewrite Hlog, retry_log_S. by rewrite <- !app_assoc.
    + split; [done|]. right. exists 0%nat. split; [lia|done].
Qed.

(** X1. For every bound [max_retries], every behaviour of the service and
    every argument, [get_citations] returns a count that is not negative or
    the failure signal; it performs no request at all (invalid argument, or a
    bound of zero, which yields the failure signal), or at most [max_retries]
    requests with exactly one two-second sleep between consecutive requests
    and none after the last. *)
Theorem get_citations_bounded
    (elink : nat → outcome (list link_set)) (pmid : pyval) (max_retries : nat) :
  let r := get_citations elink pmid max_retries in
  (∀ c, r.1 = Some c → 0 ≤ c)
  ∧ (r.2 = [] ∧ (r.1 = zero_citations
                 ∨ max_retries = 0%nat ∧ r.1 = failure_signal)
     ∨ ∃ (s : string) (j : nat),
         pmid = PyStr s ∧ s ≠ "" ∧ (j < max_retries)%nat
         ∧ r.2 = retry_log s j ++ [Request "elink" s]).
Proof.
  cbv zeta. unfold get_citations.
  destruct (negb (truthy pmid) || negb (isinstance_str pmid)) eqn:Hguard.
  - split; [by intros c [= <-]|]. left. split; [done|by left].
  - destruct pmid as [|b|z|s|b]; simpl in Hguard; try done;
      try (by rewrite orb_true_r in Hguard).
    rewrite orb_false_r in Hguard. apply negb_false_iff, negb_true_iff in Hguard.
    assert (Hne : s ≠ "") by (intros ->; done).
    destruct (get_citations_loop_shape elink s max_retries 0 [])
      as [Hc [[-> Hr]|(j & Hj & Hlog)]]; simpl in *.
    + split; [done|]. left. split; [done|]. right. done.
    + split; [done|]. right. by exists s, j.
Qed.

(** ** The citation check of [ref_gen] *)

(** [strip] removes whitespace at both ends and nothing else. *)
Lemma strip_text_split s :
  ∃ sp1 sp2,
    s = sp1 ++ strip_text s ++ sp2
    ∧ Forall (λ c, is_space c = true) sp1
    ∧ Forall (λ c, is_space c = true) sp2
    ∧ match strip_text s with c :: _ => is_space c = false | [] => True end
    ∧ match last (strip_text s) with
      | Some c => is_space c = false
      | None => True
      end.
Proof.
  unfold strip_text.
  destruct (skip_spaces_split s) as (sp1 & Hs & Hsp1 & Hhead).
  destruct (rstrip_split (skip_spaces s)) as (sp2 & Hr & Hsp2 & Hlast).
  exists sp1, sp2. split; [by rewrite <- Hr|]. repeat split; try done.
  destruct (rstrip (skip_spaces s)) as [|c r] eqn:Hrs; [done|].
  rewrite Hr in Hhead. exact Hhead.
Qed.

Lemma strip_text_idemp s : strip_text (strip_text s) = strip_text s.
Proof.
  destruct (strip_text_split s) as (_ & _ & _ & _ & _ & Hhead & Hlast).
  unfold strip_text at 1. rewrite skip_spaces_fixed by done.
  by apply rstrip_fixed.
Qed.

(** X2. An identifier read from the list file is its line without the
    whitespace at both ends: the line is the identifier between two runs of
    whitespace, the identifier neither starts nor ends with whitespace, and
    stripping it again changes nothing. Nothing else about the line is
    checked or changed. *)
Theorem read_pmids_strips (lines : list string) :
  length (read_pmids lines) = length lines
  ∧ ∀ (i : nat) line, lines !! i = Some line →
      ∃ pmid sp1 sp2,
        read_pmids lines !! i = Some pmid
        ∧ String.list_ascii_of_string line
          = sp1 ++ String.list_ascii_of_string pmid ++ sp2
        ∧ Forall (λ c, is_space c = true) sp1
        ∧ Forall (λ c, is_space c = true) sp2
        ∧ match String.list_ascii_of_string pmid with
          | c :: _ => is_space c = false
          | [] => True
          end
        ∧ match last (String.list_ascii_of_string pmid) with
          | Some c => is_space c = false
          | None => True
          end
        ∧ strip pmid = pmid.
Proof.
  unfold read_pmids. split; [apply length_fmap|].
  intros i line Hline. exists (strip line).
  destruct (strip_text_split (String.list_ascii_of_string line))
    as (sp1 & sp2 & Hs & Hsp1 & Hsp2 & Hhead & Hlast).
  exists sp1, sp2. rewrite list_lookup_fmap, Hline.
  unfold strip. rewrite !String.list_ascii_of_string_of_list_ascii.
  repeat split; try done. by rewrite strip_text_idemp.
Qed.

Lemma citation_loop_eq elink threshold pmids : ∀ i acc log,
  citation_loop elink threshold i pmids acc log
  = (foldl (threshold_step threshold) acc (counted_by elink i pmids),
     log ++ citation_log elink i pmids).
Proof.
  induction pmids as [|pmid rest IH]; intros i acc log.
  - simpl. by rewrite app_nil_r.
  - cbn [citation_loop counted_by citation_log foldl].
    destruct (get_citations (elink i) (PyStr pmid) default_max_retries)
      as [citation_count evs].
    rewrite IH. cbn [fst snd]. by rewrite <- !app_assoc.
Qed.

Lemma counted_by_pmids elink pmids : ∀ i, (counted_by elink i pmids).*1 = pmids.
Proof.
  induction pmids as [|pmid rest IH]; intros i; [done|].
  cbn [counted_by]. rewrite fmap_cons. cbn [fst]. by rewrite IH.
Qed.

Lemma count_requests_app l1 l2 :
  count_requests (l1 ++ l2) = (count_requests l1 + count_requests l2)%nat.
Proof. unfold count_requests. by rewrite filter_app, length_app. Qed.

Lemma count_sleeps_app ms l1 l2 :
  count_sleeps ms (l1 ++ l2) = (count_sleeps ms l1 + count_sleeps ms l2)%nat.
Proof. unfold count_sleeps. by rewrite filter_app, length_app. Qed.

Lemma retry_log_counts pmid j :
  count_requests (retry_log pmid j) = j ∧ count_sleeps 3000 (retry_log pmid j) = 0%nat.
Proof.
  induction j as [|j [IH1 IH2]]; [done|].
  rewrite retry_log_S, count_requests_app, count_sleeps_app, IH1, IH2.
  done.
Qed.

(** One call of [get_citations] with the default bound: at most three
    requests, and no pause of three seconds. *)
Lemma get_citations_counts elink pmid :
  (count_requests (get_citations elink (PyStr pmid) default_max_retries).2 ≤ 3)%nat
  ∧ count_sleeps 3000 (get_citations elink (PyStr pmid) default_max_retries).2
    = 0%nat.
Proof.
  destruct (get_citations_loop_shape elink pmid 3 0 []) as [_ Hshape].
  unfold get_citations, default_max_retries.
  destruct (negb (truthy (PyStr pmid)) || negb (isinstance_str (PyStr pmid)));
    [split; [unfold count_requests; simpl; lia|done]|].
  cbn [pystr]. cbn [Nat.add app] in Hshape.
  destruct Hshape as [[? _]|(j & Hj & ->)]; [done|].
  destruct (retry_log_counts pmid j) as [Hr Hs].
  rewrite count_requests_app, count_sleeps_app, Hr, Hs. split; [|done].
  unfold count_requests. simpl. lia.
Qed.

Lemma citation_log_counts elink pmids : ∀ i,
  count_sleeps 3000 (citation_log elink i pmids) = length pmids
  ∧ (count_requests (citation_log elink i pmids) ≤ 3 * length pmids)%nat.
Proof.
  induction pmids as [|pmid rest IH]; intros i; [done|].
  cbn [citation_log]. destruct (IH (S i)) as [IH1 IH2].
  destruct (get_citations_counts (elink i) pmid) as [Hr Hs].
  rewrite !count_sleeps_app, !count_requests_app, Hs, IH1.
  split; [done|]. cbn [length].
  change (count_requests [Sleep 3000]) with 0%nat. lia.
Qed.

(** X3. The citation check as a whole: its two lists are those of the
    threshold filter applied to the counts obtained, so that every identifier
    read, blank and invalid ones included, lands in exactly one list; it
    pauses three seconds once per identifier, whatever the outcome of the
    count, and makes at most three requests per identifier. *)
Theorem citation_loop_totals
    (elink : nat → nat → outcome (list link_set)) (threshold : Z)
    (pmids : list string) :
  let r := citation_loop elink threshold 0 pmids ([], []) [] in
  r.1 = threshold_filter threshold (counted_by elink 0 pmids)
  ∧ (length r.1.1 + length r.1.2 = length pmids)%nat
  ∧ r.1.1 ++ r.1.2 ≡ₚ pmids
  ∧ count_sleeps 3000 r.2 = length pmids
  ∧ (count_requests r.2 ≤ 3 * length pmids)%nat.
Proof.
  cbv zeta. rewrite citation_loop_eq. cbn [fst snd app].
  fold (threshold_filter threshold (counted_by elink 0 pmids)).
  assert (Hperm : (threshold_filter threshold (counted_by elink 0 pmids)).1
                  ++ (threshold_filter threshold (counted_by elink 0 pmids)).2
                  ≡ₚ pmids).
  { rewrite threshold_filter_spec. cbn [fst snd].
    rewrite <- fmap_app, filter_passes_split. by rewrite counted_by_pmids. }
  split; [done|]. split; [|split; [done|apply citation_log_counts]].
  rewrite <- length_app. by rewrite Hperm.
Qed.

(** X4. A line of whitespace in the list file becomes the empty identifier;
    checking it costs no request, only the pause, and it is rejected by
    every threshold above zero and kept by every other threshold. *)
Theorem blank_line_costs_no_request
    (elink : nat → nat → outcome (list link_set)) (threshold : Z) (i : nat)
    (line : string) (acc : list string * list string) (log : list event) :
  Forall (λ c, is_space c = true) (String.list_ascii_of_string line) →
  read_pmids [line] = [""]
  ∧ citation_loop elink threshold i (read_pmids [line]) acc log
    = (if threshold <=? 0
       then (acc.1 ++ [""], acc.2)
       else (acc.1, acc.2 ++ [""]),
       log ++ [Sleep 3000]).
Proof.
  intros Hblank.
  assert (Hstrip : strip line = "").
  { unfold strip, strip_text. by rewrite skip_spaces_all. }
  unfold read_pmids. rewrite !fmap_cons, Hstrip. split; [done|].
  cbn. by destruct (threshold <=? 0).
Qed.

Lemma blank_line_costs_no_request_witness :
  citation_loop elink_no_links 10 0 (read_pmids ["  "]) ([], []) []
  = (([], [""]), [Sleep 3000]).
Proof.
  apply (blank_line_costs_no_request elink_no_links 10 0 "  " ([], []) []).
  repeat constructor.
Defined.

(** ** Resolving the DOI *)

Lemma find_doi_prefix ids d :
  find_doi ids = Ok (Some d) → ∃ t, d = "https://doi.org/" +:+ t.
Proof.
  induction ids as [|a ids IH]; simpl; [done|].
  case_decide; [|done]. destruct (id_text a) as [t|]; [|done].
  intros [= <-]. by exists t.
Qed.

Lemma pmid_to_doi_prefix entrez pmid d p :
  pmid_to_doi entrez pmid = Ok (Some d, p) → ∃ t, d = "https://doi.org/" +:+ t.
Proof.
  unfold pmid_to_doi. destruct entrez as [e|status_code body]; [done|].
  destruct (status_code =? 200); [|done]. destruct body as [|ids]; [done|].
  destruct (find_doi ids) as [[d'|]|] eqn:Hf; cbn; try done.
  intros [= <- <-]. by apply (find_doi_prefix ids).
Qed.

Lemma pmid_to_doi_via_crossref_prefix crossref pmid d p :
  pmid_to_doi_via_crossref crossref pmid = (Some d, p) →
  ∃ t, d = "https://doi.org/" +:+ t.
Proof.
  unfold pmid_to_doi_via_crossref.
  destruct crossref as [|st [[|[doi|] items]|]]; try done.
  destruct (_ && _); [|done]. intros [= <- <-]. by exists doi.
Qed.

(** X5. The DOI lookup of [append_doi_pmid_to_entry]: an exception of the
    Entrez request leaves the function and CrossRef is not tried; a DOI found
    by Entrez is returned whatever CrossRef would answer; without a DOI from
    Entrez (status other than 200, unparsable body, no identifier of type
    doi) the result is that of CrossRef; an identifier of type doi without
    text raises [TypeError]; and whenever the lookup returns, the identifier
    returned is the one asked for and a DOI returned starts with
    "https://doi.org/" and is therefore never empty. *)
Theorem resolve_doi_discipline
    (entrez : efetch_reply) (crossref : crossref_reply) (pmid : string) :
  (∀ e, entrez = EfetchRaised e → resolve_doi entrez crossref pmid = Raised e)
  ∧ (∀ d p, pmid_to_doi entrez pmid = Ok (Some d, p) →
       resolve_doi entrez crossref pmid = Ok (Some d, Some pmid))
  ∧ (∀ p, pmid_to_doi entrez pmid = Ok (None, p) →
       resolve_doi entrez crossref pmid
       = Ok (pmid_to_doi_via_crossref crossref pmid))
  ∧ (∀ ids1 ids2,
       entrez = EfetchReply 200
                  (XmlArticleIds
                     (ids1 ++ {| IdType := Some "doi"; id_text := None |} :: ids2)) →
       Forall (λ a, IdType a ≠ Some "doi") ids1 →
       resolve_doi entrez crossref pmid = Raised TypeError)
  ∧ (∀ doi pmid_out,
       resolve_doi entrez crossref pmid = Ok (doi, pmid_out) →
       pmid_out = Some pmid
       ∧ ∀ d, doi = Some d →
           (∃ t, d = "https://doi.org/" +:+ t) ∧ str_truthy d = true).
Proof.
  split; [by intros e ->|]. split; [|split; [|split]].
  - intros d p Hd. unfold resolve_doi. rewrite Hd. cbn.
    destruct (pmid_to_doi_pmid entrez pmid (Some d) p Hd) as [?| ->]; done.
  - intros p Hd. unfold resolve_doi. by rewrite Hd.
  - intros ids1 ids2 -> Hids. unfold resolve_doi, pmid_to_doi.
    cbn [Z.eqb Pos.eqb].
    assert (Hf : find_doi (ids1 ++ {| IdType := Some "doi"; id_text := None |} :: ids2)
                 = Raised TypeError).
    { induction Hids as [|a ids1 Ha _ IH]; cbn [app find_doi].
      - cbn [IdType id_text]. by case_decide.
      - by case_decide. }
    by rewrite Hf.
  - intros doi pmid_out Hres.
    split; [by apply (resolve_doi_pmid_out entrez crossref pmid doi)|].
    intros d ->.
    assert (Hpre : ∃ t, d = "https://doi.org/" +:+ t).
    { unfold resolve_doi in Hres.
      destruct (pmid_to_doi entrez pmid) as [[[d'|] p]|] eqn:Hd; cbn in Hres;
        [| |done].
      - injection Hres as <- _. by apply (pmid_to_doi_prefix entrez pmid d' p).
      - injection Hres as Hres.
        by apply (pmid_to_doi_via_crossref_prefix crossref pmid d pmid_out). }
    split; [done|]. by destruct Hpre as [t ->].
Qed.

(** ** The check for an existing pmid field *)

(** X6. The check for an existing pmid field succeeds exactly on the texts
    that hold, somewhere that is not the continuation of a word, the letters
    p, m, i, d in any case, then optional whitespace, an equals sign,
    optional whitespace, an opening brace and a closing brace later on the
    same line. In particular a value in quotes or a value that spans two
    lines is not seen. *)
Theorem pmid_exists_iff (bibtex_entry : text) :
  pmid_exists bibtex_entry = true ↔ pmid_field_shape bibtex_entry.
Proof.
  split.
  - intros (pre & rest & -> & Hm & Hb)%search_pmid_inv.
    apply match_pmid_here_inv in Hm as (name & sp1 & sp2 & v & post & -> & ?).
    exists pre, name, sp1, sp2, v, post. split; [done|].
    split; [by destruct (last pre)|done].
  - intros (pre & name & sp1 & sp2 & v & post & -> & ? & ? & ? & ? & ?).
    by apply pmid_exists_field.
Qed.

(** ** More on the patch of an entry *)

(** X7. When neither service yields a DOI and the entry already has a pmid
    field, or the identifier is empty, the entry is returned as it is; and an
    entry without any closing brace gets the new lines appended at its end. *)
Theorem append_doi_pmid_to_entry_edges
    (entrez : efetch_reply) (crossref : crossref_reply)
    (bibtex_entry : text) (pmid : string) (doi pmid_out : option string) :
  resolve_doi entrez crossref pmid = Ok (doi, pmid_out) →
  (doi = None → pmid_exists bibtex_entry = true ∨ pmid = "" →
   append_doi_pmid_to_entry entrez crossref bibtex_entry pmid = Ok bibtex_entry)
  ∧ ("}"%char ∉ bibtex_entry →
     append_doi_pmid_to_entry entrez crossref bibtex_entry pmid
     = Ok (bibtex_entry
           ++ concat (lines_to_add doi pmid_out (pmid_exists bibtex_entry)))).
Proof.
  intros Hres.
  assert (pmid_out = Some pmid) as -> by by eapply resolve_doi_pmid_out.
  unfold append_doi_pmid_to_entry. rewrite Hres. cbn. split.
  - intros -> Hcase. f_equal. unfold insert_fields, lines_to_add. cbn.
    destruct Hcase as [->| ->]; [by rewrite andb_false_r|done].
  - intros Hno. f_equal. unfold insert_fields.
    destruct (lines_to_add _ _ _) as [|line lines]; [by rewrite app_nil_r|].
    by rewrite rfind_absent.
Qed.

Lemma append_doi_pmid_to_entry_edges_witness :
  append_doi_pmid_to_entry entrez_without_doi CrossrefRaised
    (String.list_ascii_of_string "no brace here") "123"
  = Ok (String.list_ascii_of_string "no brace here"
        ++ field_line "pmid" "123").
Proof.
  assert (Hres : resolve_doi entrez_without_doi CrossrefRaised "123"
                 = Ok (None, Some "123")) by reflexivity.
  destruct (append_doi_pmid_to_entry_edges entrez_without_doi CrossrefRaised
              (String.list_ascii_of_string "no brace here") "123" _ _ Hres)
    as [_ Hno].
  rewrite Hno; [vm_compute; reflexivity|].
  intros Hin. apply list_elem_of_In in Hin. vm_compute in Hin.
  repeat (destruct Hin as [Hin|Hin]; [discriminate|]). done.
Defined.

(** A text into which a pmid line has been inserted passes the check. *)
Lemma pmid_exists_with_line front back pmid :
  newline ∉ String.list_ascii_of_string pmid →
  pmid_exists (front ++ field_line "pmid" pmid ++ back) = true.
Proof.
  intros Hnl.
  assert (Heq : front ++ field_line "pmid" pmid ++ back
    = (front ++ String.list_ascii_of_string "    ")
      ++ String.list_ascii_of_string "pmid"
      ++ [" "%char] ++ "="%char :: [" "%char]
      ++ "{"%char :: String.list_ascii_of_string pmid
      ++ "}"%char :: (","%char :: newline :: back)).
  { unfold field_line. rewrite !list_ascii_of_string_app.
    cbn [String.list_ascii_of_string]. rewrite <- !app_assoc. by cbn [app]. }
  rewrite Heq.
  apply pmid_exists_field;
    [|reflexivity|by repeat constructor|by repeat constructor|done].
  change (String.list_ascii_of_string "    ")
    with ([" "; " "; " "]%char ++ [" "%char]).
  by rewrite app_assoc, last_snoc.
Qed.

(** When there are lines to add, they sit inside the result as one block. *)
Lemma insert_fields_block bibtex_entry doi pmid_out :
  lines_to_add doi pmid_out (pmid_exists bibtex_entry) ≠ [] →
  ∃ front back,
    insert_fields bibtex_entry doi pmid_out
    = front ++ concat (lines_to_add doi pmid_out (pmid_exists bibtex_entry))
      ++ back.
Proof.
  intros Hlines. unfold insert_fields.
  destruct (lines_to_add _ _ _) as [|line lines]; [done|].
  destruct (rfind "}" bibtex_entry) as [pos|].
  - eexists _, _. rewrite (app_assoc _ [newline]). reflexivity.
  - exists bibtex_entry, []. by rewrite app_nil_r.
Qed.

(** X8. Once the patch has added a pmid line for an identifier without a
    line break, the patched entry passes the check for an existing pmid
    field: patching it again adds no second pmid line. The DOI is not
    checked for: a second patch with a resolved DOI adds the DOI line
    again. *)
Theorem append_twice_no_second_pmid
    (bibtex_entry : text) (doi : option string) (pmid : string) :
  pmid_exists bibtex_entry = false →
  pmid ≠ "" →
  newline ∉ String.list_ascii_of_string pmid →
  let patched := insert_fields bibtex_entry doi (Some pmid) in
  pmid_exists patched = true
  ∧ ∀ doi' pmid_out',
      lines_to_add doi' pmid_out' (pmid_exists patched)
      = if opt_truthy doi' then [field_line "DOI" (default "" doi')] else [].
Proof.
  intros Hno Hne Hnl patched.
  assert (Hp : pmid_exists patched = true).
  { subst patched.
    assert (Ht : str_truthy pmid = true).
    { unfold str_truthy. by destruct (String.eqb_spec pmid ""). }
    assert (Hlines : ∃ doi_lines,
      lines_to_add doi (Some pmid) (pmid_exists bibtex_entry)
      = doi_lines ++ [field_line "pmid" pmid]).
    { unfold lines_to_add. rewrite Hno. cbn [opt_truthy negb default].
      rewrite Ht. by eexists. }
    destruct Hlines as [doi_lines Hlines].
    destruct (insert_fields_block bibtex_entry doi (Some pmid))
      as (front & back & ->).
    { rewrite Hlines. by destruct doi_lines. }
    rewrite Hlines, concat_app. cbn [concat]. rewrite app_nil_r.
    rewrite <- (app_assoc (concat doi_lines)), app_assoc.
    by apply pmid_exists_with_line. }
  split; [done|]. intros doi' pmid_out'. unfold lines_to_add. rewrite Hp.
  rewrite andb_false_r. by rewrite app_nil_r.
Qed.

Lemma append_twice_no_second_pmid_witness :
  pmid_exists (insert_fields sample_record (Some "https://doi.org/10.1/x")
                 (Some "123")) = true.
Proof.
  apply (append_twice_no_second_pmid sample_record
           (Some "https://doi.org/10.1/x") "123").
  - vm_compute. reflexivity.
  - discriminate.
  - intros Hin. apply list_elem_of_In in Hin. vm_compute in Hin.
    repeat (destruct Hin as [Hin|Hin]; [discriminate|]). done.
Defined.

(** ** The groups and the output of duplicate resolution *)

Lemma elem_of_rev {A} (l : list A) x : x ∈ rev l ↔ x ∈ l.
Proof. rewrite !list_elem_of_In. symmetry. apply in_rev. Qed.

Lemma elem_of_concat {A} (ls : list (list A)) x :
  x ∈ concat ls ↔ ∃ l, l ∈ ls ∧ x ∈ l.
Proof.
  rewrite list_elem_of_In, in_concat. split.
  - intros (l & Hl & Hx). exists l. by rewrite !list_elem_of_In.
  - intros (l & Hl & Hx). exists l. by rewrite <- !list_elem_of_In.
Qed.

Lemma first_occurrences_snoc {A} `{EqDecision A} (l : list A) x :
  first_occurrences (l ++ [x])
  = if decide (x ∈ l) then first_occurrences l else first_occurrences l ++ [x].
Proof.
  unfold first_occurrences. rewrite rev_unit. cbn [remove_dups].
  unfold decide_rel.
  destruct (list_elem_of_dec x (rev l)) as [Hin|Hnin].
  - rewrite decide_True; [done|]. by apply elem_of_rev.
  - rewrite decide_False; [done|]. by rewrite <- elem_of_rev.
Qed.

Lemma elem_of_first_occurrences {A} `{EqDecision A} (l : list A) x :
  x ∈ first_occurrences l ↔ x ∈ l.
Proof.
  unfold first_occurrences. by rewrite elem_of_rev, elem_of_remove_dups, elem_of_rev.
Qed.

Lemma group_by_pmid_first_keys entries :
  (group_by_pmid entries).*1 = first_occurrences (pmid_of <$> entries).
Proof.
  induction entries as [|e entries IH] using rev_ind; [done|].
  rewrite group_by_pmid_snoc, groups_append_keys, fmap_app.
  cbn [fmap list_fmap]. rewrite first_occurrences_snoc, IH.
  destruct (decide (pmid_of e ∈ pmid_of <$> entries)) as [Hin|Hnin].
  - rewrite decide_True; [done|]. by apply elem_of_first_occurrences.
  - rewrite decide_False; [done|]. by rewrite elem_of_first_occurrences.
Qed.

Lemma with_pmid_snoc k entries e :
  with_pmid k (entries ++ [e])
  = with_pmid k entries ++ (if decide (pmid_of e = k) then [e] else []).
Proof.
  unfold with_pmid. by rewrite filter_app.
Qed.

Lemma groups_append_members entries e : ∀ groups,
  NoDup groups.*1 →
  Forall (λ g, g.2 = with_pmid g.1 entries) groups →
  (pmid_of e ∉ groups.*1 → with_pmid (pmid_of e) entries = []) →
  Forall (λ g, g.2 = with_pmid g.1 (entries ++ [e]))
    (groups_append groups (pmid_of e) e).
Proof.
  induction groups as [|[k es] groups IH]; intros Hnd Hall Hfresh.
  - constructor; [|constructor]. cbn [fst snd].
    rewrite with_pmid_snoc, Hfresh, decide_True by (done || apply not_elem_of_nil).
    done.
  - rewrite fmap_cons in Hnd. cbn [fst] in Hnd.
    apply NoDup_cons in Hnd as [Hk Hnd].
    apply Forall_cons in Hall as [Hes Hall]. cbn [fst snd] in Hes.
    cbn [groups_append]. destruct (decide (k = pmid_of e)) as [->|Hne].
    + constructor.
      * cbn [fst snd]. by rewrite with_pmid_snoc, Hes, decide_True.
      * rewrite Forall_forall in Hall |- *. intros g Hg.
        rewrite with_pmid_snoc, decide_False, app_nil_r; [by apply Hall|].
        intros Heq. apply Hk. rewrite Heq. by apply list_elem_of_fmap_2.
    + constructor.
      * cbn [fst snd]. by rewrite with_pmid_snoc, Hes, decide_False, app_nil_r.
      * apply IH; [done|done|]. intros Hnin. apply Hfresh.
        rewrite fmap_cons. cbn [fst].
        apply not_elem_of_cons. by split.
Qed.

(** Each group holds exactly the entries with its key, in input order. *)
Lemma group_by_pmid_members entries :
  Forall (λ g, g.2 = with_pmid g.1 entries) (group_by_pmid entries).
Proof.
  induction entries as [|e entries IH] using rev_ind; [constructor|].
  rewrite group_by_pmid_snoc. apply groups_append_members.
  - apply group_by_pmid_wf.
  - done.
  - intros Hnin. unfold with_pmid. apply filter_none.
    apply Forall_forall. intros x Hx Heq. apply Hnin.
    apply group_by_pmid_keys. rewrite <- Heq. by apply list_elem_of_fmap_2.
Qed.

(** X9. The grouping loop in closed form: there is one group per distinct
    value of [entry.get('pmid')], the missing value included, in the order
    in which the values first occur; the group of a value holds exactly the
    entries with that value, in input order, so that no entry is lost, none
    is duplicated and no group is empty. *)
Theorem group_by_pmid_closed_form (entries : list entry) :
  group_by_pmid entries
  = (λ k, (k, with_pmid k entries)) <$> first_occurrences (pmid_of <$> entries).
Proof.
  rewrite <- group_by_pmid_first_keys.
  assert (Hall := group_by_pmid_members entries).
  induction Hall as [|[k es] groups Hes _ IH]; [done|].
  rewrite !fmap_cons. cbn [fst snd] in *. by rewrite <- IH, Hes.
Qed.

Lemma resolve_groups_results efetch groups out :
  resolve_groups efetch groups = Ok out →
  Forall2 (λ g o, resolve_group efetch g.1 g.2 = Ok o) groups out.
Proof.
  revert out. induction groups as [|[k es] groups IH]; simpl; intros out.
  - intros [= <-]. constructor.
  - destruct (resolve_group efetch k es) as [e|] eqn:He; simpl; [|done].
    destruct (resolve_groups efetch groups) as [r|] eqn:Hr; simpl; [|done].
    intros [= <-]. constructor; [done|by apply IH].
Qed.

Lemma Forall2_elem_of_l {A B} (P : A → B → Prop) l k x :
  Forall2 P l k → x ∈ l → ∃ y, y ∈ k ∧ P x y.
Proof.
  induction 1 as [|a b l k Hab _ IH]; intros Hin; [by inversion Hin|].
  apply elem_of_cons in Hin as [->|Hin].
  - exists b. split; [by left|done].
  - destruct (IH Hin) as (y & Hy & HP). exists y. split; [by right|done].
Qed.

Lemma Forall2_elem_of_r {A B} (P : A → B → Prop) l k y :
  Forall2 P l k → y ∈ k → ∃ x, x ∈ l ∧ P x y.
Proof.
  induction 1 as [|a b l k Hab _ IH]; intros Hin; [by inversion Hin|].
  apply elem_of_cons in Hin as [->|Hin].
  - exists a. split; [by left|done].
  - destruct (IH Hin) as (x & Hx & HP). exists x. split; [by right|done].
Qed.

Lemma group_by_pmid_elem entries k es :
  (k, es) ∈ group_by_pmid entries → es = with_pmid k entries ∧ es ≠ [].
Proof.
  intros Hin. split.
  - assert (Hall := group_by_pmid_members entries).
    rewrite Forall_forall in Hall. by apply (Hall (k, es)).
  - destruct (group_by_pmid_wf entries) as [_ Hall].
    rewrite Forall_forall in Hall. by apply (Hall (k, es)).
Qed.

(** X10. The output of duplicate resolution, whenever it returns: every
    record of the output is a record of the input, unchanged; the [pmid]
    values of the output are the distinct [pmid] values of the input in the
    order of their first occurrence, each exactly once; and a record whose
    [pmid] value no other record shares is in the output. *)
Theorem remove_duplicates_output
    (efetch : option string → outcome string) (entries out : list entry) :
  remove_duplicates efetch entries = Ok out →
  (∀ e, e ∈ out → e ∈ entries)
  ∧ pmid_of <$> out = first_occurrences (pmid_of <$> entries)
  ∧ NoDup (pmid_of <$> out)
  ∧ (∀ e, e ∈ entries → with_pmid (pmid_of e) entries = [e] → e ∈ out).
Proof.
  intros Hout. unfold remove_duplicates in Hout.
  assert (Hkeys := resolve_groups_keys efetch _ out (group_by_pmid_wf entries) Hout).
  assert (Hres := resolve_groups_results efetch _ out Hout).
  split; [|split; [|split]].
  - intros e He.
    destruct (Forall2_elem_of_r _ _ _ e Hres He) as ([k es] & Hg & Hr).
    apply group_by_pmid_elem in Hg as [-> _]. cbn [fst snd] in Hr.
    apply resolve_group_elem in Hr.
    by apply list_elem_of_filter in Hr as [_ ?].
  - by rewrite Hkeys, group_by_pmid_first_keys.
  - rewrite Hkeys. apply group_by_pmid_wf.
  - intros e He Hunique.
    assert (Hk : pmid_of e ∈ (group_by_pmid entries).*1).
    { apply group_by_pmid_keys. by apply list_elem_of_fmap_2. }
    apply list_elem_of_fmap in Hk as ([k es] & Hkeq & Hg). cbn [fst] in Hkeq.
    subst k. destruct (Forall2_elem_of_l _ _ _ _ Hres Hg) as (o & Ho & Hr).
    apply group_by_pmid_elem in Hg as [-> _]. cbn [fst snd] in Hr.
    rewrite Hunique in Hr. by injection Hr as ->.
Qed.

Lemma remove_duplicates_output_witness :
  pmid_of <$> [study_b_2019; no_pmid_2019]
  = first_occurrences (pmid_of <$> [study_a_2021; no_pmid_2019; study_b_2019]).
Proof.
  assert (H : remove_duplicates efetch_no_title
                [study_a_2021; no_pmid_2019; study_b_2019]
              = Ok [study_b_2019; no_pmid_2019]) by (vm_compute; reflexivity).
  exact (proj1 (proj2 (remove_duplicates_output efetch_no_title _ _ H))).
Defined.

(** X11. The title service is asked only about [pmid] values that two or
    more records share: two services that agree on those values give the
    same result, exceptions included. *)
Theorem remove_duplicates_asks_for_shared_pmids_only
    (efetch efetch' : option string → outcome string) (entries : list entry) :
  (∀ k, (2 ≤ length (with_pmid k entries))%nat → efetch k = efetch' k) →
  remove_duplicates efetch entries = remove_duplicates efetch' entries.
Proof.
  intros Hagree. unfold remove_duplicates.
  assert (Hall : Forall (λ g, resolve_group efetch g.1 g.2
                              = resolve_group efetch' g.1 g.2)
                   (group_by_pmid entries)).
  { apply Forall_forall. intros [k es] Hg.
    apply group_by_pmid_elem in Hg as [Hes Hne]. cbn [fst snd].
    destruct (decide (length es = 1%nat)) as [Hlen|Hlen].
    - by destruct es as [|e [|e' es]].
    - rewrite !resolve_group_unfold by done. rewrite Hagree; [done|].
      rewrite <- Hes. destruct es as [|e [|e' es]]; simpl in *; try done; lia. }
  induction Hall as [|[k es] groups Hg _ IH]; [done|].
  cbn [resolve_groups]. cbn [fst snd] in Hg. by rewrite Hg, IH.
Qed.

Lemma remove_duplicates_asks_for_shared_pmids_only_witness :
  remove_duplicates efetch_only_555 [study_a_2021; no_pmid_2019; study_b_2019]
  = remove_duplicates efetch_study_a [study_a_2021; no_pmid_2019; study_b_2019].
Proof.
  apply remove_duplicates_asks_for_shared_pmids_only.
  intros k Hk. unfold efetch_only_555, efetch_study_a.
  case_decide as Hne; [done|]. exfalso.
  destruct k as [k|]; [|vm_compute in Hk; lia].
  destruct (decide (k = "555")) as [->|Hk']; [done|].
  assert (with_pmid (Some k) [study_a_2021; no_pmid_2019; study_b_2019] = []) as Hnil.
  { apply filter_none. repeat constructor; vm_compute; congruence. }
  rewrite Hnil in Hk. simpl in Hk. lia.
Defined.

Lemma sorted_raises_missing key l e :
  sorted key l = Raised e → ∃ x, x ∈ l ∧ key x = None.
Proof.
  intros Hr.
  destruct (decide (Forall (λ x, is_Some (key x)) l)) as [Hall|Hnot].
  - destruct (sorted_total key l Hall) as [r Hok]. congruence.
  - apply not_Forall_Exists in Hnot; [|apply _].
    apply Exists_exists in Hnot as (x & Hx & Hnone). exists x. split; [done|].
    by apply eq_None_not_Some.
Qed.

Lemma earliest_year_raises entries e :
  entries ≠ [] → earliest_year entries = Raised e →
  e = TypeError ∧ ∃ x, x ∈ entries ∧ year_of x = None.
Proof.
  intros Hne. unfold earliest_year. fold year_of.
  destruct (sorted year_of entries) as [[|h s]|e'] eqn:Hs; simpl.
  - apply sorted_perm in Hs. apply Permutation_nil_l in Hs. congruence.
  - done.
  - intros [= <-]. split; [by apply (sorted_raises year_of entries)|].
    by apply (sorted_raises_missing year_of entries e').
Qed.

Lemma resolve_groups_raised efetch groups e :
  resolve_groups efetch groups = Raised e →
  ∃ g, g ∈ groups ∧ resolve_group efetch g.1 g.2 = Raised e.
Proof.
  induction groups as [|[k es] groups IH]; simpl; [done|].
  destruct (resolve_group efetch k es) as [o|e'] eqn:Ho; simpl.
  - destruct (resolve_groups efetch groups) as [r|e''] eqn:Hr; simpl; [done|].
    intros [= <-]. destruct (IH eq_refl) as (g & Hg & Hraised).
    exists g. split; [by right|done].
  - intros [= <-]. exists (k, es). split; [by left|done].
Qed.

(** X12. Duplicate resolution raises in two situations only, both inside a
    group of two or more records: the title lookup for a shared [pmid] value
    raises, and that exception is passed on; or the year decides and a record
    of the group has no year, which gives a [TypeError]. A record set
    without a repeated [pmid] value is always resolved. *)
Theorem remove_duplicates_raises
    (efetch : option string → outcome string) (entries : list entry) (e : exn) :
  remove_duplicates efetch entries = Raised e →
  (∃ k, (2 ≤ length (with_pmid k entries))%nat ∧ efetch k = Raised e)
  ∨ (e = TypeError
     ∧ ∃ k x, (2 ≤ length (with_pmid k entries))%nat
              ∧ x ∈ with_pmid k entries ∧ year_of x = None).
Proof.
  intros Hr. apply resolve_groups_raised in Hr as ([k es] & Hg & Hr).
  apply group_by_pmid_elem in Hg as [Hes Hne]. cbn [fst snd] in Hr.
  assert (Hlen : length es ≠ 1%nat).
  { intros Hlen. by destruct es as [|x [|x' es]]. }
  assert (Htwo : (2 ≤ length (with_pmid k entries))%nat).
  { rewrite <- Hes. destruct es as [|x [|x' es]]; simpl in *; try done; lia. }
  rewrite resolve_group_unfold in Hr by done.
  assert (Hyear : earliest_year es = Raised e →
    e = TypeError ∧ ∃ k x, (2 ≤ length (with_pmid k entries))%nat
                      ∧ x ∈ with_pmid k entries ∧ year_of x = None).
  { intros (-> & x & Hx & Hnone)%earliest_year_raises; [|done].
    split; [done|]. exists k, x. split; [done|]. by rewrite <- Hes. }
  destruct (efetch k) as [title|e'] eqn:Hfetch.
  - right. destruct (str_truthy title); [|by apply Hyear].
    destruct (filter _ es) as [|m ms]; [by apply Hyear|done].
  - left. exists k. split; [done|]. by injection Hr as ->.
Qed.

Lemma remove_duplicates_raises_witness :
  (∃ k, (2 ≤ length (with_pmid k [no_pmid_2021; no_pmid_2019]))%nat
        ∧ efetch_raises k = Raised OtherException)
  ∨ (OtherException = TypeError
     ∧ ∃ k x, (2 ≤ length (with_pmid k [no_pmid_2021; no_pmid_2019]))%nat
              ∧ x ∈ with_pmid k [no_pmid_2021; no_pmid_2019]
              ∧ year_of x = None).
Proof.
  apply (remove_duplicates_raises efetch_raises [no_pmid_2021; no_pmid_2019]).
  vm_compute. reflexivity.
Defined.

(** ** Merging the record sets *)

Lemma combine_bib_files_perm reload files :
  (∀ entries, reload entries ≡ₚ entries) →
  combine_bib_files reload files ≡ₚ concat files.
Proof.
  intros Hreload. unfold combine_bib_files. rewrite Hreload.
  assert (H : ∀ acc, foldl (λ c es : list entry, c ++ es) acc files
                     = acc ++ concat files).
  { induction files as [|f files IH]; intros acc; simpl.
    - by rewrite app_nil_r.
    - by rewrite IH, app_assoc. }
  by rewrite H.
Qed.

(** The records handed to [remove_duplicates] are those of the files. *)
Lemma combined_path_perm reload files entries :
  (∀ entries, reload entries ≡ₚ entries) →
  combined_path reload files = Ok entries → entries ≡ₚ concat files.
Proof.
  intros Hreload. unfold combined_path.
  destruct files as [|f [|f' files]]; [done| |].
  - intros [= <-]. simpl. by rewrite app_nil_r.
  - cbn [length Nat.ltb Nat.leb]. intros [= <-].
    by apply combine_bib_files_perm.
Qed.

(** What duplicate resolution keeps comes from its input, and every [pmid]
    value of the input is kept. *)
Lemma remove_duplicates_elem efetch entries out o :
  remove_duplicates efetch entries = Ok out → o ∈ out → o ∈ entries.
Proof.
  intros Hout Ho. unfold remove_duplicates in Hout.
  assert (Hres := resolve_groups_results efetch _ out Hout).
  destruct (Forall2_elem_of_r _ _ _ o Hres Ho) as ([k es] & Hg & Hr).
  apply group_by_pmid_elem in Hg as [-> _]. cbn [fst snd] in Hr.
  apply resolve_group_elem in Hr.
  by apply list_elem_of_filter in Hr as [_ ?].
Qed.

Lemma remove_duplicates_represents efetch entries out e :
  remove_duplicates efetch entries = Ok out → e ∈ entries →
  ∃ o, o ∈ out ∧ pmid_of o = pmid_of e.
Proof.
  intros Hout He.
  assert (Hk : pmid_of e ∈ pmid_of <$> out).
  { unfold remove_duplicates in Hout.
    rewrite (resolve_groups_keys efetch _ out (group_by_pmid_wf _) Hout).
    apply group_by_pmid_keys. by apply list_elem_of_fmap_2. }
  apply list_elem_of_fmap in Hk as (o & Heq & Ho). by exists o.
Qed.

(** X13. The merge keeps every record of every file and adds none, in the
    order in which the library's writer puts them, whatever that order is.
    The script merges only when there are at least two files; with one file
    duplicate resolution reads that file as it is, and with none the script
    fails with [IndexError]. Whenever the finalized set is produced, its
    [pmid] values are pairwise distinct, each of its records is a record of
    one of the files, and every record of every file is represented in it by
    a record with the same [pmid] value. *)
Theorem finalize_represents_every_record
    (reload : list entry → list entry)
    (efetch : option string → outcome string) (files : list (list entry)) :
  (∀ entries, reload entries ≡ₚ entries) →
  combine_bib_files reload files ≡ₚ concat files
  ∧ (files = [] → finalize reload efetch files = Raised IndexError)
  ∧ (∀ f, files = [f] →
       finalize reload efetch files = remove_duplicates efetch f)
  ∧ (∀ out, finalize reload efetch files = Ok out →
       NoDup (pmid_of <$> out)
       ∧ (∀ o, o ∈ out → ∃ es, es ∈ files ∧ o ∈ es)
       ∧ ∀ es e, es ∈ files → e ∈ es → ∃ o, o ∈ out ∧ pmid_of o = pmid_of e).
Proof.
  intros Hreload.
  split; [by apply combine_bib_files_perm|]. split; [by intros ->|].
  split; [by intros f ->|]. intros out. unfold finalize.
  destruct (combined_path reload files) as [entries|] eqn:Hpath; [|done].
  cbn [mbind outcome_bind]. intros Hout.
  apply (combined_path_perm reload files entries Hreload) in Hpath.
  split; [by apply (remove_duplicates_NoDup efetch entries out)|]. split.
  - intros o Ho. apply (remove_duplicates_elem efetch entries out o Hout) in Ho.
    rewrite Hpath in Ho. by apply elem_of_concat in Ho.
  - intros es e Hes He.
    apply (remove_duplicates_represents efetch entries out e Hout).
    rewrite Hpath. apply elem_of_concat. by exists es.
Qed.

Lemma finalize_represents_every_record_witness :
  finalize reload_by_ID efetch_study_a
    [[study_a_2021]; [study_a_2019; study_b_2019]] = Ok [study_a_2019]
  ∧ finalize (λ entries, entries) efetch_study_a
      [[study_a_2021]; [study_a_2019; study_b_2019]] = Ok [study_a_2021]
  ∧ NoDup (pmid_of <$> [study_a_2019]).
Proof.
  assert (Hreload : ∀ entries, reload_by_ID entries ≡ₚ entries)
    by (intros entries; apply merge_sort_Permutation).
  assert (H : finalize reload_by_ID efetch_study_a
                [[study_a_2021]; [study_a_2019; study_b_2019]]
              = Ok [study_a_2019]) by (vm_compute; reflexivity).
  split; [exact H|]. split; [vm_compute; reflexivity|].
  exact (proj1 (proj2 (proj2 (proj2
           (finalize_represents_every_record reload_by_ID efetch_study_a _
              Hreload))) _ H)).
Defined.

(** ** The passes of the duplicate check in full *)

Lemma value_of_no_value key e : value_of key e = None ↔ no_value key e.
Proof.
  unfold value_of, no_value, opt_truthy.
  destruct (e !! key) as [v|]; [|done]. by destruct (str_truthy v).
Qed.

Lemma value_of_Some key e v :
  value_of key e = Some v ↔ e !! key = Some v ∧ v ≠ "".
Proof.
  unfold value_of, str_truthy. destruct (e !! key) as [w|].
  - destruct (String.eqb_spec w "") as [->|Hne]; simpl.
    + split; [done|]. by intros [[= <-] ?].
    + split; [by intros [= <-]|]. by intros [[= <-] _].
  - split; [done|]. by intros [? _].
Qed.

Lemma values_snoc key entries e :
  values key (entries ++ [e])
  = values key entries ++ match value_of key e with Some v => [v] | None => [] end.
Proof. unfold values. rewrite omap_app. simpl. by destruct (value_of key e). Qed.

Lemma values_sublist key l1 l2 :
  l1 `sublist_of` l2 → values key l1 `sublist_of` values key l2.
Proof.
  unfold values. induction 1 as [|x l1 l2 _ IH|x l1 l2 _ IH]; simpl.
  - constructor.
  - destruct (value_of key x); [by constructor|done].
  - destruct (value_of key x); [by constructor|done].
Qed.

Lemma occurrences_app v l1 l2 :
  occurrences v (l1 ++ l2) = (occurrences v l1 + occurrences v l2)%nat.
Proof. unfold occurrences. by rewrite filter_app, length_app. Qed.

Lemma occurrences_singleton v w :
  occurrences v [w] = if decide (w = v) then 1%nat else 0%nat.
Proof. unfold occurrences. rewrite filter_cons, filter_nil. by case_decide. Qed.

Lemma occurrences_pos v l : (1 ≤ occurrences v l)%nat ↔ v ∈ l.
Proof.
  unfold occurrences. induction l as [|w l IH].
  - simpl. split; [lia|by intros ?%elem_of_nil].
  - rewrite filter_cons, elem_of_cons. destruct (decide (w = v)) as [->|Hne].
    + simpl. split; [by left|lia].
    + rewrite IH. split; [by right|]. by intros [->|?].
Qed.

Lemma occurrences_NoDup v l : NoDup l → (occurrences v l ≤ 1)%nat.
Proof.
  induction 1 as [|w l Hw _ IH]; [unfold occurrences; simpl; lia|].
  change (w :: l) with ([w] ++ l).
  rewrite occurrences_app, occurrences_singleton.
  case_decide as Heq; [|simpl; lia]. subst w.
  assert (occurrences v l = 0%nat); [|lia].
  destruct (occurrences v l) eqn:Ho; [done|].
  exfalso. apply Hw, occurrences_pos. lia.
Qed.

(** The loop of a pass over the entries, one entry more at a time. *)
Lemma audit_inv_foldl key entries :
  audit_inv key entries (foldl (Audit.step key) (∅, [], ∅) entries).
Proof.
  induction entries as [|e entries IH] using rev_ind.
  - unfold audit_inv. cbn [foldl fst snd].
    split; [intros v; split; [by intros ?%not_elem_of_empty|by intros ?%elem_of_nil]|].
    split; [constructor|]. split; [constructor|]. split; [done|].
    split; [|split; [done|by intros []]].
    intros v. split; [by intros ?%not_elem_of_empty|].
    unfold occurrences. simpl. lia.
  - rewrite foldl_app. cbn [foldl].
    destruct (foldl (Audit.step key) (∅, [], ∅) entries)
      as [[seen new] removed].
    destruct IH as (Hseen & Hsub & Hnd & Hall & Hrem & Hsame & Hless).
    cbn [fst snd] in *.
    assert (Hlen := sublist_length _ _ Hsub).
    destruct (no_value_cases key e) as [Hno|(val & Hkey & Hne & Hval)].
    + rewrite audit_step_no_value by done.
      assert (Hv : value_of key e = None) by by apply value_of_no_value.
      unfold audit_inv. cbn [fst snd]. rewrite !values_snoc, Hv, !app_nil_r.
      repeat split; try done.
      * apply Hseen.
      * apply Hseen.
      * by apply sublist_app.
      * apply Hrem.
      * apply Hrem.
      * intros Hr. by rewrite Hsame.
      * intros Hr. rewrite !length_app. simpl. specialize (Hless Hr). lia.
    + assert (Hv : value_of key e = Some val) by by apply value_of_Some.
      rewrite (audit_step_value _ _ _ _ _ val) by done.
      assert (Hocc : ∀ w, occurrences w (values key entries ++ [val])
                = (occurrences w (values key entries)
                   + if decide (val = w) then 1 else 0)%nat).
      { intros w. by rewrite occurrences_app, occurrences_singleton. }
      destruct (decide (val ∈ seen)) as [Hin|Hnin];
        unfold audit_inv; cbn [fst snd]; rewrite !values_snoc, Hv.
      * assert (Hold : val ∈ values key entries) by by apply Hseen.
        repeat split; try done.
        -- intros Hw. apply elem_of_app. left. by apply Hseen.
        -- intros [Hw|Hw%list_elem_of_singleton]%elem_of_app;
             apply Hseen; [done|by subst].
        -- by apply sublist_inserts_r.
        -- intros v [Hw|Hw%list_elem_of_singleton]%elem_of_app;
             apply Hall; [done|by subst].
        -- rewrite Hocc. intros [Hw|Hw%elem_of_singleton]%elem_of_union.
           ++ apply Hrem in Hw. lia.
           ++ subst v. rewrite decide_True by done.
              apply occurrences_pos in Hold. lia.
        -- rewrite Hocc. intros Hw. apply elem_of_union.
           destruct (decide (val = v)) as [->|Hneq].
           ++ right. by apply elem_of_singleton.
           ++ left. apply Hrem. lia.
        -- intros Hr. exfalso.
           assert (val ∈ removed ∪ {[val]}) as Hmem
             by (apply elem_of_union; right; by apply elem_of_singleton).
           rewrite Hr in Hmem. by apply not_elem_of_empty in Hmem.
        -- intros _. rewrite length_app. simpl. lia.
      * assert (Hnew : val ∉ values key entries) by by rewrite <- Hseen.
        assert (Hzero : occurrences val (values key entries) = 0%nat).
        { destruct (occurrences val (values key entries)) eqn:Ho; [done|].
          exfalso. apply Hnew, occurrences_pos. lia. }
        repeat split; try done.
        -- intros [Hw|Hw%elem_of_singleton]%elem_of_union; apply elem_of_app.
           ++ left. by apply Hseen.
           ++ right. by apply list_elem_of_singleton.
        -- intros [Hw|Hw%list_elem_of_singleton]%elem_of_app;
             apply elem_of_union.
           ++ left. by apply Hseen.
           ++ right. by apply elem_of_singleton.
        -- by apply sublist_app.
        -- apply NoDup_app. split; [done|]. split; [|apply NoDup_singleton].
           intros w Hw ->%list_elem_of_singleton. apply Hnew.
           by apply (elem_of_sublist _ _ _ Hw), values_sublist.
        -- intros v [Hw|Hw]%elem_of_app; apply elem_of_app;
             [left; by apply Hall|by right].
        -- rewrite Hocc. intros Hw. apply Hrem in Hw. lia.
        -- rewrite Hocc. intros Hw. apply Hrem.
           destruct (decide (val = v)) as [->|Hneq]; lia.
        -- intros Hr. by rewrite Hsame.
        -- intros Hr. rewrite !length_app. simpl. specialize (Hless Hr). lia.
Qed.

Lemma audit_pass_state key entries :
  ∃ seen,
    audit_inv key entries
      (seen, (Audit.remove_duplicates entries key).1,
             (Audit.remove_duplicates entries key).2).
Proof.
  assert (H := audit_inv_foldl key entries). unfold Audit.remove_duplicates.
  destruct (foldl (Audit.step key) (∅, [], ∅) entries) as [[seen new] removed].
  by exists seen.
Qed.

(** X14. One pass of the duplicate check, for any entries and key: the
    survivors are the input with some entries left out, in input order;
    among the survivors no value (present and not empty) occurs twice, and
    every value of the input still occurs; the removed values are exactly
    the values that occur at least twice in the input; and the pass removes
    an entry exactly when it reports a removed value. *)
Theorem audit_pass_spec (key : string) (entries : list entry) :
  let new_entries := (Audit.remove_duplicates entries key).1 in
  let removed_keys := (Audit.remove_duplicates entries key).2 in
  new_entries `sublist_of` entries
  ∧ NoDup (values key new_entries)
  ∧ (∀ v, v ∈ values key new_entries ↔ v ∈ values key entries)
  ∧ (∀ v, v ∈ removed_keys ↔ (2 ≤ occurrences v (values key entries))%nat)
  ∧ (removed_keys = ∅ ↔ new_entries = entries)
  ∧ (removed_keys ≠ ∅ ↔ (length new_entries < length entries)%nat).
Proof.
  cbv zeta.
  destruct (audit_pass_state key entries)
    as (seen & _ & Hsub & Hnd & Hall & Hrem & Hsame & Hless). cbn [fst snd] in *.
  split; [done|]. split; [done|]. split; [|split; [done|]].
  - intros v. split; [|apply Hall].
    intros Hv. by apply (elem_of_sublist _ _ _ Hv), values_sublist.
  - assert (Hdec : ∀ X : gset string, X = ∅ ∨ X ≠ ∅).
    { intros X. destruct (decide (X = ∅)); [by left|by right]. }
    split; split.
    + done.
    + intros Heq. destruct (Hdec (Audit.remove_duplicates entries key).2)
        as [?|Hne]; [done|]. apply Hless in Hne. rewrite Heq in Hne. lia.
    + done.
    + intros Hlt Hempty. apply Hsame in Hempty. rewrite Hempty in Hlt. lia.
Qed.

(** A list without a repeated value passes unchanged. *)
Lemma audit_pass_NoDup key entries :
  NoDup (values key entries) → Audit.remove_duplicates entries key = (entries, ∅).
Proof.
  intros Hnd.
  destruct (audit_pass_state key entries)
    as (seen & _ & _ & _ & _ & Hrem & Hsame & _). cbn [fst snd] in *.
  assert (Hempty : (Audit.remove_duplicates entries key).2 = ∅).
  { apply set_eq. intros v. rewrite Hrem. split.
    - intros Hv. assert (H := occurrences_NoDup v _ Hnd). lia.
    - by intros ?%not_elem_of_empty. }
  destruct (Audit.remove_duplicates entries key) as [new removed].
  cbn [fst snd] in *. by rewrite Hsame, Hempty.
Qed.

Lemma audit_pass_sublist key entries :
  (Audit.remove_duplicates entries key).1 `sublist_of` entries.
Proof. by destruct (audit_pass_state key entries) as (seen & _ & ? & _). Qed.

Lemma audit_pass_unique key entries :
  NoDup (values key (Audit.remove_duplicates entries key).1).
Proof. by destruct (audit_pass_state key entries) as (seen & _ & _ & ? & _). Qed.

Lemma three_passes_sublists entries :
  let r1 := (Audit.remove_duplicates entries "ID").1 in
  let r2 := (Audit.remove_duplicates r1 "pmid").1 in
  let r3 := (Audit.remove_duplicates r2 "doi").1 in
  (Audit.three_passes entries).1.1.1 = r3
  ∧ r3 `sublist_of` r2 ∧ r2 `sublist_of` r1 ∧ r1 `sublist_of` entries.
Proof.
  cbv zeta. rewrite audit_three_passes. cbn [fst snd].
  repeat split; apply audit_pass_sublist.
Qed.

(** X15. After the three passes the survivors have pairwise distinct entry
    keys, pairwise distinct persistent identifiers and pairwise distinct
    document identifiers (among the values present and not empty), they are
    entries of the input in input order, and running the check on them again
    removes nothing and reports nothing. *)
Theorem three_passes_unique_and_stable (entries : list entry) :
  let survivors := (Audit.three_passes entries).1.1.1 in
  survivors `sublist_of` entries
  ∧ NoDup (values "ID" survivors)
  ∧ NoDup (values "pmid" survivors)
  ∧ NoDup (values "doi" survivors)
  ∧ Audit.three_passes survivors = (survivors, ∅, ∅, ∅).
Proof.
  cbv zeta. destruct (three_passes_sublists entries) as (-> & H32 & H21 & H10).
  set (r1 := (Audit.remove_duplicates entries "ID").1) in *.
  set (r2 := (Audit.remove_duplicates r1 "pmid").1) in *.
  set (r3 := (Audit.remove_duplicates r2 "doi").1) in *.
  assert (Hid : NoDup (values "ID" r3)).
  { apply (sublist_NoDup _ (values "ID" r1)); [apply audit_pass_unique|].
    apply values_sublist. by etrans. }
  assert (Hpmid : NoDup (values "pmid" r3)).
  { apply (sublist_NoDup _ (values "pmid" r2)); [apply audit_pass_unique|].
    by apply values_sublist. }
  assert (Hdoi : NoDup (values "doi" r3)) by apply audit_pass_unique.
  split; [by repeat (etrans; [eassumption|])|].
  split; [done|]. split; [done|]. split; [done|].
  rewrite audit_three_passes. cbv zeta.
  rewrite (audit_pass_NoDup "ID" r3 Hid). cbn [fst snd].
  rewrite (audit_pass_NoDup "pmid" r3 Hpmid). cbn [fst snd].
  by rewrite (audit_pass_NoDup "doi" r3 Hdoi).
Qed.

Lemma count_missing_le field entries :
  (count_missing field entries ≤ length entries)%nat.
Proof. unfold count_missing. apply length_filter. Qed.

Lemma count_missing_sublist field l1 l2 :
  l1 `sublist_of` l2 → (count_missing field l1 ≤ count_missing field l2)%nat.
Proof.
  unfold count_missing. induction 1 as [|x l1 l2 _ IH|x l1 l2 _ IH]; [done|..];
    rewrite ?filter_cons; repeat case_decide; simpl; lia.
Qed.

(** X16. The figures of the report: the number of remaining entries never
    exceeds the original total, and the difference is the reported number of
    removed entries; the report opens with the duplicates warning exactly
    when an entry was removed; the missing-field counts are taken over the
    survivors of the three passes, not over the input, so that each is at
    most the number of remaining entries and at most the count over the
    input; and with [save_txt] the function raises [ValueError], after the
    report, exactly when no folder is given. *)
Theorem audit_report_figures (entries : list entry) :
  let report := audit_report_of entries in
  let survivors := (Audit.three_passes entries).1.1.1 in
  (remaining report ≤ original_total report)%nat
  ∧ total_removed report
    = Z.of_nat (original_total report) - Z.of_nat (remaining report)
  ∧ (warning report = true ↔ (remaining report < original_total report)%nat)
  ∧ missing_fields_counts report
    = (λ field, (field, count_missing field survivors))
      <$> ["journal"; "volume"; "pages"; "pmid"; "doi"]
  ∧ (∀ field, (count_missing field survivors ≤ remaining report)%nat
              ∧ (count_missing field survivors ≤ count_missing field entries)%nat)
  ∧ (∀ save_folder,
       check_info_check_duplicates entries true save_folder
       = if opt_truthy save_folder
         then AuditPrinted report true
         else AuditValueError report)
  ∧ (∀ save_folder,
       check_info_check_duplicates entries false save_folder
       = AuditPrinted report false).
Proof.
  cbv zeta.
  destruct (three_passes_sublists entries) as (Hs & H32 & H21 & H10).
  assert (Hstate1 := audit_pass_state "ID" entries).
  set (r1 := (Audit.remove_duplicates entries "ID").1) in *.
  assert (Hstate2 := audit_pass_state "pmid" r1).
  set (r2 := (Audit.remove_duplicates r1 "pmid").1) in *.
  assert (Hstate3 := audit_pass_state "doi" r2).
  set (r3 := (Audit.remove_duplicates r2 "doi").1) in *.
  destruct Hstate1 as (seen1 & _ & _ & _ & _ & _ & Hsame1 & Hless1).
  destruct Hstate2 as (seen2 & _ & _ & _ & _ & _ & Hsame2 & Hless2).
  destruct Hstate3 as (seen3 & _ & _ & _ & _ & _ & Hsame3 & Hless3).
  cbn [fst snd] in *.
  assert (Hl32 := sublist_length _ _ H32).
  assert (Hl21 := sublist_length _ _ H21).
  assert (Hl10 := sublist_length _ _ H10).
  assert (Hsub : r3 `sublist_of` entries) by by repeat (etrans; [eassumption|]).
  unfold check_info_check_duplicates, audit_report_of.
  rewrite Hs. rewrite audit_three_passes. cbv zeta. cbn [fst snd].
  fold r1. fold r2. fold r3. cbn [original_total remaining total_removed
    warning missing_fields_counts].
  split; [lia|]. split; [done|]. split; [|split; [done|]].
  - rewrite bool_decide_eq_true. split.
    + intros [H1|[H2|H3]].
      * specialize (Hless1 H1). lia.
      * specialize (Hless2 H2). lia.
      * specialize (Hless3 H3). lia.
    + intros Hlt.
      destruct (decide ((Audit.remove_duplicates entries "ID").2 = ∅)) as [E1|?];
        [|by left].
      destruct (decide ((Audit.remove_duplicates r1 "pmid").2 = ∅)) as [E2|?];
        [|by right; left].
      destruct (decide ((Audit.remove_duplicates r2 "doi").2 = ∅)) as [E3|?];
        [|by right; right].
      exfalso. apply Hsame1 in E1. apply Hsame2 in E2. apply Hsame3 in E3.
      rewrite E3, E2, E1 in Hlt. lia.
  - split; [|split; [done|done]].
    intros field. split; [apply count_missing_le|by apply count_missing_sublist].
Qed.

Lemma values_pmid_NoDup entries :
  NoDup (pmid_of <$> entries) → NoDup (values "pmid" entries).
Proof.
  unfold values. induction entries as [|e entries IH]; [constructor|].
  rewrite fmap_cons. intros [Hhead Hnd]%NoDup_cons. simpl.
  destruct (value_of "pmid" e) as [v|] eqn:Hv; [|by apply IH].
  apply NoDup_cons. split; [|by apply IH].
  intros (e' & He' & Hv')%list_elem_of_omap. apply Hhead.
  apply value_of_Some in Hv as [Hv _]. apply value_of_Some in Hv' as [Hv' _].
  unfold pmid_of at 1. rewrite Hv, <- Hv'. by apply list_elem_of_fmap_2.
Qed.

(** X17. The check that follows duplicate resolution never reports a
    duplicate persistent identifier: on the output of [remove_duplicates],
    and on any part of it that an earlier pass leaves, the pass by [pmid]
    removes nothing. *)
Theorem recheck_finds_no_duplicate_pmid
    (efetch : option string → outcome string) (entries out : list entry) :
  remove_duplicates efetch entries = Ok out →
  (∀ part, part `sublist_of` out →
     Audit.remove_duplicates part "pmid" = (part, ∅))
  ∧ removed_pmids (audit_report_of out) = ∅.
Proof.
  intros Hout.
  assert (Hnd : NoDup (values "pmid" out)).
  { apply values_pmid_NoDup. by apply (remove_duplicates_NoDup efetch entries). }
  assert (Hpart : ∀ part, part `sublist_of` out →
                    Audit.remove_duplicates part "pmid" = (part, ∅)).
  { intros part Hsub. apply audit_pass_NoDup.
    apply (sublist_NoDup _ (values "pmid" out)); [done|by apply values_sublist]. }
  split; [done|]. unfold audit_report_of.
  rewrite audit_three_passes. cbv zeta. cbn [fst snd removed_pmids].
  by rewrite (Hpart _ (audit_pass_sublist "ID" out)).
Qed.

Lemma recheck_finds_no_duplicate_pmid_witness :
  removed_pmids (audit_report_of [study_b_2019; no_pmid_2019]) = ∅.
Proof.
  assert (H : remove_duplicates efetch_no_title
                [study_a_2021; no_pmid_2019; study_b_2019]
              = Ok [study_b_2019; no_pmid_2019]) by (vm_compute; reflexivity).
  exact (proj2 (recheck_finds_no_duplicate_pmid efetch_no_title _ _ H)).
Defined.

(** ** The record loop in full *)

Ltac attempts_before :=
  let i := fresh "i" in
  let Hi := fresh "Hi" in
  intros i Hi; repeat (destruct i as [|i]; [assumption|]); lia.

(** The retry loop stops at the first attempt that returns an entry, or
    after the fifth failure. *)
Lemma entrez_attempts_cases w pmid :
  let r := entrez_attempts w pmid max_retries 0 initial_wait_time None [] in
  (∃ j : nat,
     (j < 5)%nat
     ∧ (∀ i : nat, (i < j)%nat → entry_truthy (pubmed_bib w pmid i) = false)
     ∧ entry_truthy (pubmed_bib w pmid j) = true
     ∧ r = (pubmed_bib w pmid j, backoff_log pmid j ++ [Request "pubmed-bib" pmid]))
  ∨ (primary_exhausted w pmid ∧ r = (pubmed_bib w pmid 4, backoff_log pmid 5)).
Proof.
  cbv zeta. unfold max_retries, primary_exhausted. cbn [entrez_attempts].
  destruct (entry_truthy (pubmed_bib w pmid 0)) eqn:H0.
  { left. exists 0%nat. split; [lia|]. split; [attempts_before|]. by split. }
  destruct (entry_truthy (pubmed_bib w pmid 1)) eqn:H1.
  { left. exists 1%nat. split; [lia|]. split; [attempts_before|]. by split. }
  destruct (entry_truthy (pubmed_bib w pmid 2)) eqn:H2.
  { left. exists 2%nat. split; [lia|]. split; [attempts_before|]. by split. }
  destruct (entry_truthy (pubmed_bib w pmid 3)) eqn:H3.
  { left. exists 3%nat. split; [lia|]. split; [attempts_before|]. by split. }
  destruct (entry_truthy (pubmed_bib w pmid 4)) eqn:H4.
  { left. exists 4%nat. split; [lia|]. split; [attempts_before|]. by split. }
  right. split; [attempts_before|done].
Qed.

Lemma backoff_log_figures pmid j :
  (j ≤ 5)%nat →
  count_requests (backoff_log pmid j) = j
  ∧ 0 ≤ total_sleep (backoff_log pmid j) ≤ 20000.
Proof.
  intros Hj.
  do 6 (destruct j as [|j]; [vm_compute; repeat split; congruence|]).
  lia.
Qed.

Lemma total_sleep_app l1 l2 : total_sleep (l1 ++ l2) = total_sleep l1 + total_sleep l2.
Proof.
  unfold total_sleep. induction l1 as [|[service arg|ms] l1 IH]; simpl; lia.
Qed.

(** X18. The retry loop for one identifier, whatever the export tool does:
    it stops at the first attempt that returns a non-empty entry, and after
    five failures otherwise; it sleeps after every failed attempt, also the
    last, 3 s after the first attempt and 0.5 s more after each further one;
    so it makes between one and five calls of the tool and sleeps at most
    20 s, and it ends with an entry exactly when one of the five attempts
    returns one. *)
Theorem entrez_attempts_schedule (w : world) (pmid : string) :
  let r := entrez_attempts w pmid max_retries 0 initial_wait_time None [] in
  ((∃ j : nat,
      (j < 5)%nat
      ∧ (∀ i : nat, (i < j)%nat → entry_truthy (pubmed_bib w pmid i) = false)
      ∧ entry_truthy (pubmed_bib w pmid j) = true
      ∧ r = (pubmed_bib w pmid j,
             backoff_log pmid j ++ [Request "pubmed-bib" pmid]))
   ∨ (primary_exhausted w pmid ∧ r = (pubmed_bib w pmid 4, backoff_log pmid 5)))
  ∧ (1 ≤ count_requests r.2)%nat ∧ (count_requests r.2 ≤ 5)%nat
  ∧ 0 ≤ total_sleep r.2 ≤ 20000
  ∧ (entry_truthy r.1 = true
     ↔ ∃ a : nat, (a < 5)%nat ∧ entry_truthy (pubmed_bib w pmid a) = true).
Proof.
  cbv zeta. assert (Hcases := entrez_attempts_cases w pmid). cbv zeta in Hcases.
  split; [exact Hcases|].
  destruct Hcases as [(j & Hj & Hbefore & Htruthy & ->)|[Hex ->]]; cbn [fst snd].
  - destruct (backoff_log_figures pmid j) as (Hc & Hs); [lia|].
    rewrite count_requests_app, total_sleep_app, Hc.
    change (count_requests [Request "pubmed-bib" pmid]) with 1%nat.
    change (total_sleep [Request "pubmed-bib" pmid]) with 0.
    repeat split; try lia; [intros _; by exists j|done].
  - destruct (backoff_log_figures pmid 5) as (Hc & Hs); [lia|].
    rewrite Hc. repeat split; try lia.
    + intros Ht. rewrite (Hex 4%nat) in Ht by lia. done.
    + intros (a & Ha & Ht). rewrite (Hex a Ha) in Ht. done.
Qed.

Lemma write_entry_cases w st t :
  write_entry w st t = Ok (add_written st t)
  ∧ encodable w (t ++ [newline; newline]) = true
  ∨ write_entry w st t = Raised UnicodeEncodeError
    ∧ encodable w (t ++ [newline; newline]) = false.
Proof. unfold write_entry. destruct (encodable w _); [by left|by right]. Qed.

Lemma write_sanitized_cases w st bibtex_entry pmid :
  match write_sanitized w st bibtex_entry pmid with
  | Ok st' =>
    (∃ t, encodable w (t ++ [newline; newline]) = true ∧ st' = add_written st t)
    ∨ st' = add_error st (WriteFailed pmid)
  | Raised ex => ex ≠ UnicodeEncodeError
  end.
Proof.
  unfold write_sanitized.
  destruct (append_doi_pmid_to_entry _ _ _ _) as [sanitized|ex]; cbn.
  - destruct (write_entry_cases w st sanitized) as [[-> Henc]|[-> _]].
    + left. by exists sanitized.
    + by right.
  - destruct ex; try done. by right.
Qed.

(** What one pass through the [try] block can do. *)
Lemma patch_and_write_cases w st bibtex_entry pmid :
  match patch_and_write w st bibtex_entry pmid with
  | Ok st' =>
    (∃ t, encodable w (t ++ [newline; newline]) = true ∧ st' = add_written st t)
    ∨ st' = add_error st (WriteFailed pmid)
  | Raised ex => ex ≠ UnicodeEncodeError
  end.
Proof.
  unfold patch_and_write.
  destruct (append_doi_pmid_to_entry _ _ _ _) as [patched|ex].
  - destruct (write_entry_cases w st patched) as [[-> Henc]|[-> _]].
    + left. by exists patched.
    + apply write_sanitized_cases.
  - destruct ex; try done. apply write_sanitized_cases.
Qed.


Lemma accounted_refl w st : accounted w st st [].
Proof.
  unfold accounted. split; [by rewrite app_nil_r|]. split.
  - exists [], []. by rewrite !app_nil_r.
  - exists 0%nat, 0%nat. simpl. repeat split; lia.
Qed.

Lemma accounted_trans w st1 st2 st3 l1 l2 :
  accounted w st1 st2 l1 → accounted w st2 st3 l2 →
  accounted w st1 st3 (l1 ++ l2).
Proof.
  intros (Hp1 & (wr1 & lg1 & Hb1 & He1 & Henc1 & Hlen1)
          & (n1 & m1 & Hn1 & Hm1 & Hmn1 & Hnl1))
         (Hp2 & (wr2 & lg2 & Hb2 & He2 & Henc2 & Hlen2)
          & (n2 & m2 & Hn2 & Hm2 & Hmn2 & Hnl2)).
  unfold accounted. split; [by rewrite Hp2, Hp1, app_assoc|]. split.
  - exists (wr1 ++ wr2), (lg1 ++ lg2).
    rewrite Hb2, Hb1, He2, He1, !app_assoc, !length_app.
    repeat split; try done; [by apply Forall_app|lia].
  - exists (n1 + n2)%nat, (m1 + m2)%nat. rewrite Hn2, Hn1, Hm2, Hm1, length_app.
    repeat split; lia.
Qed.

(** A completed [try] block, seen from the accounts. *)
Lemma patch_and_write_accounted w st st0 bibtex_entry pmid st' (n m : nat) :
  pmid_file st = pmid_file st0 ++ [pmid] →
  bib_file st = bib_file st0 → errors st = errors st0 →
  entrez_fail_count st = (entrez_fail_count st0 + n)%nat →
  crossref_fail_count st = (crossref_fail_count st0 + m)%nat →
  (m ≤ n)%nat → (n ≤ 1)%nat →
  patch_and_write w st bibtex_entry pmid = Ok st' →
  accounted w st0 st' [pmid].
Proof.
  intros Hp Hb He Hn Hm Hmn Hn1 Hrun.
  assert (Hcases := patch_and_write_cases w st bibtex_entry pmid).
  rewrite Hrun in Hcases. unfold accounted.
  destruct Hcases as [(t & Henc & ->)| ->]; cbn [add_written add_error
    pmid_file bib_file errors entrez_fail_count crossref_fail_count].
  - split; [done|]. split.
    + exists [t ++ [newline; newline]], []. rewrite Hb, He, app_nil_r.
      repeat split; try done. by constructor.
    + exists n, m. by repeat split.
  - split; [done|]. split.
    + exists [], [WriteFailed pmid]. rewrite Hb, He, app_nil_r.
      by repeat split.
    + exists n, m. by repeat split.
Qed.

Lemma fetch_one_accounted crossref w st pmid st' :
  fetch_one crossref w st pmid = Ok st' → accounted w st st' [pmid].
Proof.
  unfold fetch_one.
  destruct (entrez_attempts w pmid max_retries 0 initial_wait_time None [])
    as [bibtex_entry log].
  destruct (entry_truthy bibtex_entry).
  - apply (patch_and_write_accounted w _ st _ pmid st' 0 0);
      cbn [add_log pmid_file bib_file errors entrez_fail_count
           crossref_fail_count]; try done; lia.
  - destruct crossref as [f|]; [|done]. cbn [call_global mbind outcome_bind].
    destruct (entry_truthy (f pmid)).
    + apply (patch_and_write_accounted w _ st _ pmid st' 1 0);
        cbn [add_log pmid_file bib_file errors entrez_fail_count
             crossref_fail_count]; try done; lia.
    + intros [= <-]. unfold accounted.
      cbn [add_error add_log pmid_file bib_file errors entrez_fail_count
           crossref_fail_count].
      split; [done|]. split.
      * exists [], [RetrievalFailed pmid]. rewrite app_nil_r. by repeat split.
      * exists 1%nat, 1%nat. repeat split; simpl; lia.
Qed.

Lemma fetch_all_accounted crossref w pmids : ∀ st st',
  fetch_all crossref w st pmids = Ok st' → accounted w st st' pmids.
Proof.
  induction pmids as [|pmid pmids IH]; intros st st'; cbn [fetch_all].
  - intros [= <-]. apply accounted_refl.
  - destruct (fetch_one crossref w st pmid) as [st1|] eqn:Hone; [|done].
    cbn [mbind outcome_bind]. intros Hrest.
    apply (accounted_trans w st st1 st' [pmid] pmids).
    + by apply (fetch_one_accounted crossref).
    + by apply IH.
Qed.

(** X20. The accounts of a completed record loop, whatever the services do
    and whether or not the fallback name is bound: every identifier was
    written to the identifier file, in order; every identifier gave exactly
    one entry in the record file or exactly one entry in the error list, so
    that the number of written records is the number of kept identifiers
    minus the number of errors; everything added to the record file is
    encodable; and the failure counters grew by at most one per identifier,
    the CrossRef counter never more than the Entrez counter. *)
Theorem fetch_all_accounts
    (crossref : binding) (w : world) (st st' : fetch_state)
    (pmids : list string) :
  fetch_all crossref w st pmids = Ok st' →
  accounted w st st' pmids
  ∧ Z.of_nat (length (bib_file st')) - Z.of_nat (length (bib_file st))
    = Z.of_nat (length pmids)
      - (Z.of_nat (length (errors st')) - Z.of_nat (length (errors st))).
Proof.
  intros Hrun. assert (Hacc := fetch_all_accounted crossref w pmids st st' Hrun).
  split; [done|].
  destruct Hacc as (_ & (written & logged & -> & -> & _ & Hlen) & _).
  rewrite !length_app. lia.
Qed.

Lemma fetch_all_accounts_witness :
  ∃ st', fetch_all functions_py_get_bibtex_via_crossref world_third_attempt
           initial_fetch_state ["1001"; "1004"] = Ok st'
         ∧ accounted world_third_attempt initial_fetch_state st' ["1001"; "1004"].
Proof.
  eexists. split; [vm_compute; reflexivity|].
  eapply (fetch_all_accounts functions_py_get_bibtex_via_crossref
            world_third_attempt initial_fetch_state _ ["1001"; "1004"]).
  vm_compute. reflexivity.
Defined.

(** With an attempt of the export tool that returns an entry, the iteration
    does not look at the fallback. *)
Lemma fetch_one_primary crossref crossref' w st pmid :
  (∃ a : nat, (a < 5)%nat ∧ entry_truthy (pubmed_bib w pmid a) = true) →
  fetch_one crossref w st pmid = fetch_one crossref' w st pmid.
Proof.
  intros (a & Ha & Ht). unfold fetch_one.
  destruct (entrez_attempts_cases w pmid)
    as [(j & Hj & _ & Htruthy & ->)|[Hex _]].
  - by rewrite Htruthy.
  - rewrite (Hex a Ha) in Ht. done.
Qed.

(** X21. The fallback is looked up only for an identifier whose five
    attempts all fail: when every identifier of the list gets an entry from
    the export tool within five attempts, the run is the same whatever
    [get_bibtex_via_crossref] is bound to, and so also when it is not bound
    at all. *)
Theorem fetch_all_without_fallback
    (crossref crossref' : binding) (w : world) (st : fetch_state)
    (pmids : list string) :
  (∀ pmid, pmid ∈ pmids →
     ∃ a : nat, (a < 5)%nat ∧ entry_truthy (pubmed_bib w pmid a) = true) →
  fetch_all crossref w st pmids = fetch_all crossref' w st pmids.
Proof.
  revert st. induction pmids as [|pmid pmids IH]; intros st Hall; [done|].
  cbn [fetch_all].
  rewrite (fetch_one_primary crossref crossref' w st pmid)
    by (apply Hall; by left).
  destruct (fetch_one crossref' w st pmid) as [st1|]; [|done].
  cbn [mbind outcome_bind]. apply IH. intros p Hp. apply Hall. by right.
Qed.

Lemma fetch_all_without_fallback_witness :
  fetch_all functions_py_get_bibtex_via_crossref world_third_attempt
    initial_fetch_state ["1001"; "1004"]
  = fetch_all (Some (λ _, None)) world_third_attempt
      initial_fetch_state ["1001"; "1004"].
Proof.
  apply fetch_all_without_fallback.
  intros pmid _. exists 2%nat. split; [lia|reflexivity].
Defined.
